(** * Ingest-and-merge engine of the tracker: a shallow embedding

    The Python sources are embedded module by module:
    - [firehose_record]: the record model ([FirehoseRecord.__init__],
      [to_rewarded_decision_dict]);
    - [partition]: the partition engine ([RewardedDecisionPartition] with its
      [load], [sort], [merge], [save], [cleanup] phases, [split],
      [get_all_overlaps], [repair_overlapping_keys]);
    - [join_rewards]: the file selection of the reward-assignment workers.

    Exceptions are values of [exn] carried by the [result] monad, the
    object store is an explicit [gmap] threaded through the phases, and
    dataframes are lists of rows with optional cells (a null cell is
    [None]). *)

From Stdlib Require Import ZArith Lia List String Ascii QArith OrdersEx.
From stdpp Require Import base option list strings sorting gmap.

#[local] Open Scope Z_scope.

(** ** Exceptions *)

Inductive exn :=
| KeyError
| ValueError
| TypeError
| ZeroDivisionError
| IOError
| AssertionError
| AttributeError
| IndexError
| OverflowError.

Inductive result (A : Type) : Type :=
| Ok (a : A)
| Raise (e : exn).
Arguments Ok {A} a.
Arguments Raise {A} e.

#[export] Instance result_ret : MRet result := fun _ a => Ok a.

#[export] Instance result_bind : MBind result := fun _ _ k r =>
  match r with
  | Ok a => k a
  | Raise e => Raise e
  end.

(** ** Order on [str]

    Python and orjson compare strings by code point, which on the UTF-8
    bytes held by [string] is the byte-wise lexicographic order. *)

Definition str_le (a b : string) : Prop := String_as_OT.compare a b <> Gt.

#[export] Instance str_le_dec : RelDecision str_le.
Proof. intros a b. unfold str_le. apply _. Defined.

Definition str_lt (a b : string) : Prop := String_as_OT.compare a b = Lt.

#[export] Instance str_lt_dec : RelDecision str_lt.
Proof. intros a b. unfold str_lt. apply _. Defined.

(** ** firehose_record.py *)

Module firehose_record.

#[local] Set Warnings "-register-all".
Inductive json : Type :=
| JNull
| JBool (b : bool)
| JInt (z : Z)
| JFloat (q : Q)
| JStr (s : string)
| JList (l : list json)
| JObj (members : list (string * json)).

Record datetime := { dt_seconds : Z; dt_tzinfo : option Z }.

Definition utc : Z := 0.

(* if timestamp.tzinfo is None: timestamp = timestamp.replace(tzinfo=utc) *)
Definition with_default_utc (ts : datetime) : datetime :=
  match dt_tzinfo ts with
  | None => {| dt_seconds := dt_seconds ts; dt_tzinfo := Some utc |}
  | Some _ => ts
  end.

Definition MESSAGE_ID_KEY : string := "message_id".
Definition DECISION_ID_KEY : string := "decision_id".
Definition TIMESTAMP_KEY : string := "timestamp".
Definition TYPE_KEY : string := "type".
Definition DECISION_TYPE : string := "decision".
Definition REWARD_TYPE : string := "reward".
Definition MODEL_KEY : string := "model".
Definition REWARD_KEY : string := REWARD_TYPE.
Definition REWARDS_KEY : string := "rewards".
Definition VARIANT_KEY : string := "variant".
Definition GIVENS_KEY : string := "givens".
Definition COUNT_KEY : string := "count".
Definition SAMPLE_KEY : string := "sample".
Definition RUNNERS_UP_KEY : string := "runners_up".

(* The class uses __slots__: a slot that was never assigned is [None] here,
   and reading it raises AttributeError.  Python's None is [Some JNull]. *)
Record FirehoseRecord := {
  message_id : option json;
  timestamp : option datetime;
  type : option string;
  model : option json;
  decision_id : option json;
  reward : option json;
  variant : option json;
  givens : option json;
  count : option json;
  runners_up : option json;
  sample : option json
}.

Definition slot {A} (s : option A) : result A :=
  match s with Some a => Ok a | None => Raise AttributeError end.

(* json_record[key] *)
Definition getitem (json_record : gmap string json) (key : string) : result json :=
  match json_record !! key with Some v => Ok v | None => Raise KeyError end.

(* json_record.get(key, None) *)
Definition get_or_none (json_record : gmap string json) (key : string) : json :=
  default JNull (json_record !! key).

(* isinstance(x, int); bool is a subclass of int *)
Definition as_int (x : json) : option Z :=
  match x with
  | JInt z => Some z
  | JBool b => Some (if b then 1 else 0)
  | _ => None
  end.

(* isinstance(x, (int, float)) *)
Definition is_int_or_float (x : json) : bool :=
  match x with JInt _ | JBool _ | JFloat _ => true | _ => false end.

Definition is_dict (x : json) : bool :=
  match x with JObj _ => true | _ => false end.

(* (len(runners_up) if runners_up else 0) *)
Definition len_if_truthy (x : json) : result Z :=
  match x with
  | JNull | JBool false => Ok 0
  | JList l => Ok (Z.of_nat (length l))
  | JStr s => Ok (Z.of_nat (String.length s))
  | JObj l => Ok (Z.of_nat (length l))
  | JInt z => if z =? 0 then Ok 0 else Raise TypeError
  | JFloat q => if Qeq_bool q 0 then Ok 0 else Raise TypeError
  | JBool true => Raise TypeError
  end.

Definition _get_sample_pool_size (count : Z) (runners_up : json) : result Z :=
  n ← len_if_truthy runners_up;
  let sample_pool_size := count - 1 - n in
  if sample_pool_size <? 0 then Raise AssertionError else Ok sample_pool_size.

(* Values stored in the dict built by to_rewarded_decision_dict. *)
Inductive rdr_value :=
| VJson (x : json)
| VTime (t : datetime)
| VStr (s : string)
| VStrList (l : list string)
| VRewards (message_id reward : json).

Section RecordModel.

(* utils.py is not among the sources: its validators and orjson's
   serializer (with OPT_SORT_KEYS) are parameters of the record model. *)
Variable is_valid_ksuid : json -> bool.
Variable get_valid_timestamp : json -> result datetime.
Variable is_valid_model_name : json -> bool.
Variable dumps : json -> string.

Definition is_decision_record (self : FirehoseRecord) : result bool :=
  t ← slot (type self); Ok (String.eqb t DECISION_TYPE).

Definition is_reward_record (self : FirehoseRecord) : result bool :=
  t ← slot (type self); Ok (String.eqb t REWARD_TYPE).

(* the branch [if self.is_reward_record()] of __init__ *)
Definition init_reward (self : FirehoseRecord) (json_record : gmap string json)
  : result FirehoseRecord :=
  decision_id_ ← getitem json_record DECISION_ID_KEY;
  if negb (is_valid_ksuid decision_id_) then Raise ValueError else
  reward_ ← getitem json_record REWARD_KEY;
  if negb (is_int_or_float reward_) then Raise ValueError else
  Ok {| message_id := message_id self; timestamp := timestamp self;
        type := type self; model := model self;
        decision_id := Some decision_id_; reward := Some reward_;
        variant := variant self; givens := givens self; count := count self;
        runners_up := runners_up self; sample := sample self |}.

(* the branch [elif self.is_decision_record()] of __init__ *)
Definition init_decision (self : FirehoseRecord) (json_record : gmap string json)
  : result FirehoseRecord :=
  let variant_ := get_or_none json_record VARIANT_KEY in
  let givens_ := get_or_none json_record GIVENS_KEY in
  if match givens_ with JNull => false | _ => negb (is_dict givens_) end
  then Raise ValueError else
  count_ ← getitem json_record COUNT_KEY;
  match as_int count_ with
  | None => Raise ValueError
  | Some c =>
      if c <? 1 then Raise ValueError else
      let runners_up_ := get_or_none json_record RUNNERS_UP_KEY in
      if match runners_up_ with
         | JNull => false
         | JList [] => true
         | JList _ => false
         | _ => true
         end
      then Raise ValueError else
      let sample_ := get_or_none json_record SAMPLE_KEY in
      let has_sample := bool_decide (is_Some (json_record !! SAMPLE_KEY)) in
      sample_pool_size ← _get_sample_pool_size c runners_up_;
      if sample_pool_size <? 0 then Raise ValueError else
      if if has_sample then sample_pool_size =? 0 else 0 <? sample_pool_size
      then Raise ValueError else
      Ok {| message_id := message_id self; timestamp := timestamp self;
            type := type self; model := model self;
            decision_id := decision_id self; reward := reward self;
            variant := Some variant_; givens := Some givens_; count := Some count_;
            runners_up := Some runners_up_; sample := Some sample_ |}
  end.

(* FirehoseRecord.__init__ *)
Definition FirehoseRecord_init (json_record : gmap string json) : result FirehoseRecord :=
  message_id_ ← getitem json_record MESSAGE_ID_KEY;
  if negb (is_valid_ksuid message_id_) then Raise ValueError else
  raw_ts ← getitem json_record TIMESTAMP_KEY;
  ts ← get_valid_timestamp raw_ts;
  let ts := with_default_utc ts in
  type_ ← getitem json_record TYPE_KEY;
  match type_ with
  | JStr type_str =>
      model_ ← getitem json_record MODEL_KEY;
      if negb (is_valid_model_name model_) then Raise ValueError else
      let self :=
        {| message_id := Some message_id_; timestamp := Some ts;
           type := Some type_str; model := Some model_;
           decision_id := None; reward := None; variant := None; givens := None;
           count := None; runners_up := None; sample := None |} in
      is_reward ← is_reward_record self;
      if is_reward : bool then init_reward self json_record
      else
        is_decision ← is_decision_record self;
        if is_decision : bool then init_decision self json_record
        else Ok self
  | _ => Raise ValueError
  end.

(* __init__ leaves runners_up None or a list; iterating anything else is
   rendered as TypeError. *)
Definition to_rewarded_decision_dict (self : FirehoseRecord)
  : result (gmap string rdr_value) :=
  let result_ : gmap string rdr_value := ∅ in
  is_decision ← is_decision_record self;
  if is_decision : bool then
    message_id_ ← slot (message_id self);
    let result_ := <[DECISION_ID_KEY := VJson message_id_]> result_ in
    ts ← slot (timestamp self);
    let result_ := <[TIMESTAMP_KEY := VTime ts]> result_ in
    variant_ ← slot (variant self);
    let result_ := <[VARIANT_KEY := VStr (dumps variant_)]> result_ in
    givens_ ← slot (givens self);
    let result_ := match givens_ with
                   | JNull => result_
                   | _ => <[GIVENS_KEY := VStr (dumps givens_)]> result_
                   end in
    count_ ← slot (count self);
    let result_ := match count_ with
                   | JNull => result_
                   | _ => <[COUNT_KEY := VJson count_]> result_
                   end in
    runners_up_ ← slot (runners_up self);
    result_ ← match runners_up_ with
              | JNull => Ok result_
              | JList l => Ok (<[RUNNERS_UP_KEY := VStrList (map dumps l)]> result_)
              | _ => Raise TypeError
              end;
    sample_ ← slot (sample self);
    let result_ := match sample_ with
                   | JNull => result_
                   | _ => <[SAMPLE_KEY := VStr (dumps sample_)]> result_
                   end in
    Ok result_
  else
    is_reward ← is_reward_record self;
    if is_reward : bool then
      decision_id_ ← slot (decision_id self);
      let result_ := <[DECISION_ID_KEY := VJson decision_id_]> result_ in
      message_id_ ← slot (message_id self);
      reward_ ← slot (reward self);
      Ok (<[REWARDS_KEY := VRewards message_id_ reward_]> result_)
    else Ok result_.

End RecordModel.

End firehose_record.

(** ** ingest/partition.py *)

(** The numbers held by the rewards maps: ints and floats of JSON.  Nothing
    is assumed of the addition, so the results also cover IEEE floats. *)
Class Number (num : Type) := {
  num_zero : num;                  (* the int 0 that sum() starts from *)
  num_add : num -> num -> num;     (* + *)
  num_float : num -> num           (* float() *)
}.

#[export] Instance Z_Number : Number Z :=
  {| num_zero := 0; num_add := Z.add; num_float := fun z => z |}.

Module partition.

(** *** dicts, JSON object texts and ChainMap *)

(* A dict with str keys keeps insertion order and has one entry per key. *)
Definition dict (V : Type) := list (string * V).

Fixpoint dict_get {V} (d : dict V) (k : string) : option V :=
  match d with
  | [] => None
  | (k', v) :: d' => if decide (k' = k) then Some v else dict_get d' k
  end.

(* d[k] = v *)
Fixpoint dict_set {V} (d : dict V) (k : string) (v : V) : dict V :=
  match d with
  | [] => [(k, v)]
  | (k', v') :: d' =>
      if decide (k' = k) then (k', v) :: d' else (k', v') :: dict_set d' k v
  end.

Definition dict_keys {V} (d : dict V) : list string := d.*1.

Definition dict_values {V} (d : dict V) : list V := d.*2.

(* The text of a JSON object is represented by its members in textual order. *)
Definition json_text (V : Type) := list (string * V).

(* orjson.loads on an object text: members are inserted left to right *)
Definition loads {V} (t : json_text V) : dict V :=
  fold_left (fun d kv => dict_set d kv.1 kv.2) t [].

(* lookup in a ChainMap over [maps]: the first map that has the key answers *)
Fixpoint ChainMap_get {V} (maps : list (dict V)) (k : string) : option V :=
  match maps with
  | [] => None
  | m :: maps' =>
      match dict_get m k with
      | Some v => Some v
      | None => ChainMap_get maps' k
      end
  end.

(* ChainMap.__iter__:
   d = {}; for mapping in reversed(self.maps): d.update(dict.fromkeys(mapping)) *)
Definition ChainMap_iter {V} (maps : list (dict V)) : list string :=
  dict_keys
    (fold_left (fun d m => fold_left (fun d k => dict_set d k tt) (dict_keys m) d)
               (reverse maps) ([] : dict unit)).

(* the dict holding, for each key of [ks] in that order, what [get] answers *)
Definition dict_from_keys {V} (get : string -> option V) (ks : list string) : dict V :=
  omap (fun k => (fun v => (k, v)) <$> get k) ks.

(* dict(ChainMap(...)): the keys in iteration order, each with its lookup *)
Definition dict_of_ChainMap {V} (maps : list (dict V)) : dict V :=
  dict_from_keys (ChainMap_get maps) (ChainMap_iter maps).

(** Modelled from the spec: utils.json_dumps is not among the sources;
    sections 6 and 9 of the spec store JSON-valued columns in canonical form,
    object keys sorted. *)
Definition json_dumps {V} (d : dict V) : json_text V :=
  dict_from_keys (dict_get d) (merge_sort str_le (dict_keys d)).

(** *** Dataframes *)

(* Series.dropna() *)
Definition dropna {A} (series : list (option A)) : list A := omap id series.

(* One row of the RDR layout (section 3 of the spec).  JSON-valued cells hold
   their text; a null cell is None. *)
Record Row {num : Type} := {
  decision_id : option string;
  timestamp : option firehose_record.datetime;
  variant : option string;
  givens : option string;
  count : option Z;
  runners_up : option (list string);
  sample : option string;
  rewards : option (json_text num);
  reward : option num
}.
Arguments Row : clear implicits.

(* [has_rewards_column] is [REWARDS_KEY in df.columns]; where it is false
   the rewards and reward cells of the rows are not part of the frame. *)
Record DataFrame {num : Type} := {
  has_rewards_column : bool;
  rows : list (Row num)
}.
Arguments DataFrame : clear implicits.

Section Merge.
Context {num : Type} `{Number num}.

Definition merge_rewards (rewards_series : list (option (json_text num))) : json_text num :=
  let rewards_dicts := map loads (dropna rewards_series) in
  json_dumps (dict_of_ChainMap rewards_dicts).

(* sum(values): additions from the int 0, left to right *)
Definition py_sum (values : list num) : num := fold_left num_add values num_zero.

Definition sum_rewards (rewards_series : list (option (json_text num))) : num :=
  let merged_rewards := loads (merge_rewards rewards_series) in
  num_float (py_sum (dict_values merged_rewards)).

Definition isnull_all {A} (col_series : list (option A)) : bool :=
  forallb (fun c => match c with None => true | Some _ => false end) col_series.

(* iloc[0] of a group's column; groups are never empty.  The
   astype("int64") of the count column is the identity on [count : Z]. *)
Definition get_first_cell {A} (col_series : list (option A)) : option A :=
  if isnull_all col_series then mjoin (head col_series)
  else head (dropna col_series).

(* groupby("decision_id"): group keys sorted, rows with a null key dropped *)
Definition group_keys (df_rows : list (Row num)) : list string :=
  merge_sort str_le (remove_dups (dropna (map decision_id df_rows))).

(* the rows of one group, in frame order *)
Definition group_rows (k : string) (df_rows : list (Row num)) : list (Row num) :=
  filter (fun r => decision_id r = Some k) df_rows.

(* agg with the aggregations dict on one group *)
Definition aggregate (with_rewards : bool) (group : list (Row num)) : Row num :=
  {| decision_id := get_first_cell (map decision_id group);
     timestamp := get_first_cell (map timestamp group);
     variant := get_first_cell (map variant group);
     givens := get_first_cell (map givens group);
     count := get_first_cell (map count group);
     runners_up := get_first_cell (map runners_up group);
     sample := get_first_cell (map sample group);
     rewards := if with_rewards then Some (merge_rewards (map rewards group)) else None;
     reward := if with_rewards then Some (sum_rewards (map rewards group)) else None |}.

(* df.groupby("decision_id").agg with the aggregations dict.reset_index(drop=True);
   DF_SCHEMA is not among the sources and its astype is taken as the
   identity on the cell types of [Row]. *)
Definition merge_frame (df : DataFrame num) : DataFrame num :=
  {| has_rewards_column := has_rewards_column df;
     rows := map (fun k => aggregate (has_rewards_column df) (group_rows k (rows df)))
                 (group_keys (rows df)) |}.

(* the cells a frame shows for a row: without a rewards column, none *)
Definition without_rewards (r : Row num) : Row num :=
  {| decision_id := decision_id r; timestamp := timestamp r; variant := variant r;
     givens := givens r; count := count r; runners_up := runners_up r;
     sample := sample r; rewards := None; reward := None |}.

Definition visible_rows (df : DataFrame num) : list (Row num) :=
  if has_rewards_column df then rows df else map without_rewards (rows df).

(* pd.concat(dfs, ignore_index=True): the union of the columns, the rows of
   the frames in order, cells of a missing column null *)
Definition pd_concat (dfs : list (DataFrame num)) : DataFrame num :=
  {| has_rewards_column := existsb has_rewards_column dfs;
     rows := concat (map visible_rows dfs) |}.

(* Two cells agree when they do not hold different values. *)
Definition cells_agree {A} (c1 c2 : option A) : Prop :=
  forall a b, c1 = Some a -> c2 = Some b -> a = b.

(* Two rewards cells agree when no reward message_id has two values. *)
Definition rewards_agree (c1 c2 : option (json_text num)) : Prop :=
  forall t1 t2 k v1 v2,
    c1 = Some t1 -> c2 = Some t2 ->
    dict_get (loads t1) k = Some v1 -> dict_get (loads t2) k = Some v2 -> v1 = v2.

Definition rows_agree (r1 r2 : Row num) : Prop :=
  cells_agree (timestamp r1) (timestamp r2) /\
  cells_agree (variant r1) (variant r2) /\
  cells_agree (givens r1) (givens r2) /\
  cells_agree (count r1) (count r2) /\
  cells_agree (runners_up r1) (runners_up r2) /\
  cells_agree (sample r1) (sample r2) /\
  rewards_agree (rewards r1) (rewards r2).

(* The records of one decision carry equal values: the guarantee of the
   domain under which collisions are harmless (section 4.4.3 of the spec). *)
Definition consistent_rows (l : list (Row num)) : Prop :=
  forall r1 r2, r1 ∈ l -> r2 ∈ l -> decision_id r1 = decision_id r2 -> rows_agree r1 r2.

End Merge.

(** *** Sorting *)

(* A stable sort: equal elements keep their input order.  list.sort is
   stable; for sort_values, whose default algorithm does not promise an order
   among equal keys, this is the order numpy gives on short arrays. *)
Fixpoint insert_sorted {A} (le : A -> A -> Prop) `{!RelDecision le}
    (x : A) (l : list A) : list A :=
  match l with
  | [] => [x]
  | y :: l' => if decide (le x y) then x :: l else y :: insert_sorted le x l'
  end.

Definition stable_sort {A} (le : A -> A -> Prop) `{!RelDecision le}
    (l : list A) : list A :=
  foldr (insert_sorted le) [] l.

(* ascending order of the decision_id column, nulls last *)
Definition id_le (a b : option string) : Prop :=
  match a, b with
  | Some x, Some y => str_le x y
  | _, None => True
  | None, Some _ => False
  end.

#[export] Instance id_le_dec : RelDecision id_le.
Proof. intros [a|] [b|]; simpl; apply _. Defined.

Definition row_le {num} (r1 r2 : Row num) : Prop :=
  id_le (decision_id r1) (decision_id r2).

#[export] Instance row_le_dec {num} : RelDecision (@row_le num).
Proof. intros r1 r2. unfold row_le. apply _. Defined.

(* df.sort_values(DECISION_ID_KEY, ignore_index=True) *)
Definition sort_values {num} (df : DataFrame num) : DataFrame num :=
  {| has_rewards_column := has_rewards_column df;
     rows := stable_sort row_le (rows df) |}.

(** *** split *)

(* math.ceil(n / m), exact on the row counts a frame can have *)
Definition ceil_div (n m : nat) : nat :=
  (n / m + (if n mod m =? 0 then 0 else 1))%nat.

(* df.iloc[a:b] *)
Definition iloc {A} (df : list A) (a b : nat) : list A :=
  take (b - a) (drop a df).

(* divmod(df.shape[0], n) raises for n = 0 *)
Definition split_roughly_equal {A} (df : list A) (n : nat) : result (list (list A)) :=
  if (n =? 0)%nat then Raise ZeroDivisionError
  else
    let k := (length df / n)%nat in
    let m := (length df mod n)%nat in
    Ok (map (fun i => iloc df (i * k + min i m) ((i + 1) * k + min (i + 1) m))
            (seq 0 n)).

Definition split {A} (df : list A) (max_row_count : nat) : result (list (list A)) :=
  if (max_row_count =? 0)%nat then Raise ZeroDivisionError
  else split_roughly_equal df (ceil_div (length df) max_row_count).

(** *** KSUIDs and partition keys *)

Definition base62_digit (c : ascii) : option Z :=
  let n := Z.of_N (N_of_ascii c) in
  if (48 <=? n) && (n <=? 57) then Some (n - 48)
  else if (65 <=? n) && (n <=? 90) then Some (n - 55)
  else if (97 <=? n) && (n <=? 122) then Some (n - 61)
  else None.

Fixpoint base62_decode (s : string) (acc : Z) : result Z :=
  match s with
  | EmptyString => Ok acc
  | String c s' =>
      match base62_digit c with
      | Some d => base62_decode s' (62 * acc + d)
      | None => Raise ValueError
      end
  end.

Definition KSUID_EPOCH : Z := 1400000000.

(* Ksuid.from_base62(id).datetime, in seconds since the Unix epoch: the
   first 4 of the 20 bytes, offset by the KSUID epoch.  The strftime of
   ISO_8601_BASIC_FORMAT is a fixed-width rendering of these seconds, so
   the order of the rendered strings is the order of the seconds. *)
Definition ksuid_timestamp (id : option string) : result Z :=
  match id with
  | None => Raise TypeError
  | Some s =>
      n ← base62_decode s 0;
      if 2 ^ 160 <=? n then Raise OverflowError
      else Ok (n / 2 ^ 128 + KSUID_EPOCH)
  end.

(* rewarded_decisions/{model}/parquet/{yyyy}/{mm}/{dd}/{max_timestamp}:
   the holes of the f-string *)
Record KeyPrefix := {
  prefix_model : string;
  prefix_max_ts : Z
}.

(* {prefix}-{min_timestamp}-{count}-{uuid4()}.parquet *)
Record PartitionKey := {
  key_model : string;
  key_max_ts : Z;
  key_min_ts : Z;
  key_count : nat;
  key_uuid : nat
}.

#[export] Instance PartitionKey_eq_dec : EqDecision PartitionKey.
Proof. solve_decision. Defined.

#[export] Instance PartitionKey_countable : Countable PartitionKey.
Proof.
  refine (inj_countable'
            (fun k => (key_model k, key_max_ts k, key_min_ts k, key_count k, key_uuid k))
            (fun t => match t with
                      | (m, a, b, c, u) =>
                          {| key_model := m; key_max_ts := a; key_min_ts := b;
                             key_count := c; key_uuid := u |}
                      end) _).
  by intros [].
Defined.

(* the keys of the train bucket: live partitions and quarantined files
   under unrecoverable/{key} *)
Inductive S3Key :=
| Live (k : PartitionKey)
| Unrecoverable (k : PartitionKey).

#[export] Instance S3Key_eq_dec : EqDecision S3Key.
Proof. solve_decision. Defined.

#[export] Instance S3Key_countable : Countable S3Key.
Proof.
  refine (inj_countable'
            (fun k => match k with Live k => inl k | Unrecoverable k => inr k end)
            (fun s => match s with inl k => Live k | inr k => Unrecoverable k end) _).
  by intros [].
Defined.

Definition parquet_s3_key_prefix (model_name : string) (max_decision_id : option string)
  : result KeyPrefix :=
  max_timestamp ← ksuid_timestamp max_decision_id;
  Ok {| prefix_model := model_name; prefix_max_ts := max_timestamp |}.

(** *** The object store and the effects of the engine *)

Inductive S3Object {num : Type} :=
| Parquet (df : DataFrame num)
| Unreadable.                      (* an object whose read raises IOError *)
Arguments S3Object : clear implicits.

(* the train bucket, and the supply of uuid4 *)
Record World {num : Type} := {
  objects : gmap S3Key (S3Object num);
  next_uuid : nat
}.
Arguments World : clear implicits.

(* A computation on the bucket: an exception leaves the writes made so far. *)
Definition M (num A : Type) : Type := World num -> result A * World num.

#[export] Instance M_ret {num} : MRet (M num) := fun _ a w => (Ok a, w).

#[export] Instance M_bind {num} : MBind (M num) := fun _ _ k m w =>
  match m w with
  | (Ok a, w') => k a w'
  | (Raise e, w') => (Raise e, w')
  end.

Definition raise {num A} (e : exn) : M num A := fun w => (Raise e, w).

Definition lift {num A} (r : result A) : M num A := fun w => (r, w).

(* assert b *)
Definition assert {num} (b : bool) : M num unit :=
  if b then mret tt else raise AssertionError.

(* pd.read_parquet: a missing or unreadable object raises IOError *)
Definition read_parquet {num} (key : S3Key) : M num (DataFrame num) := fun w =>
  match objects w !! key with
  | Some (Parquet df) => (Ok df, w)
  | Some Unreadable | None => (Raise IOError, w)
  end.

(* df.to_parquet(...) *)
Definition to_parquet {num} (key : S3Key) (df : DataFrame num) : M num unit := fun w =>
  (Ok tt, {| objects := <[key := Parquet df]> (objects w); next_uuid := next_uuid w |}).

(* s3client.delete_object(...) *)
Definition delete_object {num} (key : S3Key) : M num unit := fun w =>
  (Ok tt, {| objects := delete key (objects w); next_uuid := next_uuid w |}).

(* uuid4(): a name no earlier call has returned *)
Definition uuid4 {num} : M num nat := fun w =>
  (Ok (next_uuid w), {| objects := objects w; next_uuid := S (next_uuid w) |}).

(* try: body  except IOError: handler *)
Definition except_IOError {num A} (body handler : M num A) : M num A := fun w =>
  match body w with
  | (Raise IOError, w') => handler w'
  | r => r
  end.

Definition parquet_s3_key {num} (model_name : string)
    (min_decision_id max_decision_id : option string) (count : nat)
  : M num PartitionKey :=
  min_timestamp ← lift (ksuid_timestamp min_decision_id);
  prefix ← lift (parquet_s3_key_prefix model_name max_decision_id);
  uuid ← uuid4;
  mret {| key_model := prefix_model prefix; key_max_ts := prefix_max_ts prefix;
          key_min_ts := min_timestamp; key_count := count; key_uuid := uuid |}.

(** *** RewardedDecisionPartition *)

(* [df] is None once cleanup has deleted the attribute. *)
Record RewardedDecisionPartition {num : Type} := {
  model_name : string;
  df : option (DataFrame num);
  s3_key : option PartitionKey;
  sorted : bool;
  _min_decision_id : option string;
  _max_decision_id : option string
}.
Arguments RewardedDecisionPartition : clear implicits.

(* RewardedDecisionPartition(model_name, df, s3_key) *)
Definition RDP_init {num} (model_name : string) (df : DataFrame num)
    (s3_key : option PartitionKey) : RewardedDecisionPartition num :=
  {| model_name := model_name; df := Some df; s3_key := s3_key; sorted := false;
     _min_decision_id := None; _max_decision_id := None |}.

Section Engine.
Context {num : Type} `{Number num}.

(* firehose_record.is_valid_message_id and the configured
   PARQUET_FILE_MAX_DECISION_RECORDS are not among the sources. *)
Variable is_valid_message_id : option string -> bool.
Variable PARQUET_FILE_MAX_DECISION_RECORDS : nat.

#[local] Abbreviation RDP := (RewardedDecisionPartition num).

(* self.df *)
Definition get_df (self : RDP) : M num (DataFrame num) :=
  match df self with
  | Some d => mret d
  | None => raise AttributeError
  end.

Definition set_df (self : RDP) (d : option (DataFrame num)) : RDP :=
  {| model_name := model_name self; df := d; s3_key := s3_key self;
     sorted := sorted self; _min_decision_id := _min_decision_id self;
     _max_decision_id := _max_decision_id self |}.

Definition set_s3_key (self : RDP) (k : option PartitionKey) : RDP :=
  {| model_name := model_name self; df := df self; s3_key := k;
     sorted := sorted self; _min_decision_id := _min_decision_id self;
     _max_decision_id := _max_decision_id self |}.

(* series.iat[0] and series.iat[-1] *)
Definition iat_first {A} (series : list A) : result A :=
  match head series with Some x => Ok x | None => Raise IndexError end.

Definition iat_last {A} (series : list A) : result A :=
  match last series with Some x => Ok x | None => Raise IndexError end.

Definition load (self : RDP) : M num RDP :=
  match s3_key self with
  | None => mret self       (* nothing to load *)
  | Some key =>
      read ← except_IOError (s3_df ← read_parquet (Live key); mret (Some s3_df))
                            (mret None);
      match read with
      | None =>
          (* the file is not to be deleted: its records have not been merged *)
          mret (set_s3_key self None)
      | Some s3_df =>
          let valid_idxs := map is_valid_message_id (map decision_id (rows s3_df)) in
          if negb (forallb id valid_idxs) then
            let unrecoverable_key := Unrecoverable key in
            _ ← to_parquet unrecoverable_key s3_df;
            _ ← delete_object (Live key);
            raise ValueError
          else
            d ← get_df self;
            mret (set_df self (Some (pd_concat [d; s3_df])))
      end
  end.

Definition filter_valid (self : RDP) : M num RDP := mret self.

Definition sort (self : RDP) : M num RDP :=
  d ← get_df self;
  let d := sort_values d in
  min_id ← lift (iat_first (map decision_id (rows d)));
  max_id ← lift (iat_last (map decision_id (rows d)));
  mret {| model_name := model_name self; df := Some d; s3_key := s3_key self;
          sorted := true; _min_decision_id := min_id; _max_decision_id := max_id |}.

Definition min_decision_id (self : RDP) : result (option string) :=
  if sorted self then Ok (_min_decision_id self) else Raise AssertionError.

Definition max_decision_id (self : RDP) : result (option string) :=
  if sorted self then Ok (_max_decision_id self) else Raise AssertionError.

Definition merge (self : RDP) : M num RDP :=
  _ ← assert (sorted self);
  d ← get_df self;
  mret (set_df self (Some (merge_frame d))).

(* the body of the loop of save, for one chunk *)
Definition save_chunk (self : RDP) (with_rewards : bool) (chunk : list (Row num))
  : M num unit :=
  first_id ← lift (iat_first (map decision_id chunk));
  last_id ← lift (iat_last (map decision_id chunk));
  chunk_s3_key ← parquet_s3_key (model_name self) first_id last_id (length chunk);
  to_parquet (Live chunk_s3_key)
             {| has_rewards_column := with_rewards; rows := chunk |}.

Fixpoint save_chunks (self : RDP) (with_rewards : bool) (chunks : list (list (Row num)))
  : M num unit :=
  match chunks with
  | [] => mret tt
  | chunk :: chunks' =>
      _ ← save_chunk self with_rewards chunk;
      save_chunks self with_rewards chunks'
  end.

Definition save (self : RDP) : M num RDP :=
  _ ← assert (sorted self);
  d ← get_df self;
  chunks ← lift (split (rows d) PARQUET_FILE_MAX_DECISION_RECORDS);
  _ ← save_chunks self (has_rewards_column d) chunks;
  mret self.

Definition cleanup (self : RDP) : M num RDP :=
  _ ← match s3_key self with
      | Some key => delete_object (Live key)
      | None => mret tt
      end;
  mret (set_df self None).

Definition process (self : RDP) : M num RDP :=
  self ← load self;
  self ← filter_valid self;
  self ← sort self;
  self ← merge self;
  self ← save self;
  cleanup self.

(** *** Overlap repair *)

(* Intervals of the portion library, as far as repair uses them: P.closed
   builds the empty interval when the bounds are out of order. *)
Inductive Interval :=
| Empty
| Closed (lower upper : Z).

Definition closed (lower upper : Z) : Interval :=
  if lower <=? upper then Closed lower upper else Empty.

(* Interval.lower, None standing for P.inf, the lower bound of the empty interval *)
Definition lower (i : Interval) : option Z :=
  match i with
  | Closed lo _ => Some lo
  | Empty => None
  end.

Definition lower_le (a b : option Z) : Prop :=
  match a, b with
  | Some x, Some y => x <= y
  | _, None => True
  | None, Some _ => False
  end.

#[export] Instance lower_le_dec : RelDecision lower_le.
Proof. intros [a|] [b|]; simpl; apply _. Defined.

(* Interval.overlaps *)
Definition overlaps (a b : Interval) : bool :=
  match a, b with
  | Closed l1 u1, Closed l2 u2 => Z.max l1 l2 <=? Z.min u1 u2
  | _, _ => false
  end.

(* the union of two intervals that overlap *)
Definition union (a b : Interval) : Interval :=
  match a, b with
  | Closed l1 u1, Closed l2 u2 => Closed (Z.min l1 l2) (Z.max u1 u2)
  | Empty, i | i, Empty => i
  end.

(* An IntervalDict, as far as repair observes it: domain() and the keys
   found in values(). *)
Record IntervalDict := {
  domain : Interval;
  values : list PartitionKey
}.

(* pop_element.combine(next_element, how=lambda a, b: a + b) *)
Definition combine (a b : IntervalDict) : IntervalDict :=
  {| domain := union (domain a) (domain b); values := values a ++ values b |}.

Definition dict_le (a b : IntervalDict) : Prop :=
  lower_le (lower (domain a)) (lower (domain b)).

#[export] Instance dict_le_dec : RelDecision dict_le.
Proof. intros a b. unfold dict_le. apply _. Defined.

(* one turn of the loop of get_all_overlaps; the list [overlaps] is held
   with its last element first, so that pop() takes the head *)
Definition overlaps_step (overlaps_rev : list IntervalDict) (next_element : IntervalDict)
  : list IntervalDict :=
  match overlaps_rev with
  | [] => [next_element]
  | pop_element :: rest =>
      if overlaps (domain pop_element) (domain next_element)
      then combine pop_element next_element :: rest
      else next_element :: pop_element :: rest
  end.

Definition get_all_overlaps (keys_to_repair : list PartitionKey)
  : result (list IntervalDict) :=
  let train_s3_intervals :=
    map (fun key => {| domain := closed (key_min_ts key) (key_max_ts key);
                       values := [key] |})
        keys_to_repair in
  match stable_sort dict_le train_s3_intervals with
  | [] => Raise IndexError
  | first :: rest => Ok (reverse (fold_left overlaps_step rest [first]))
  end.

(* set(itertools.chain(...)), listed in order of first occurrence; Python
   leaves the order of a set open, and it only decides which value wins a
   collision in the merge that follows *)
Definition get_unique_overlapping_keys (single_overlap_keys : IntervalDict)
  : list PartitionKey :=
  remove_dups (values single_overlap_keys).

(* the order of the key strings of one model: the max timestamp first,
   then the min timestamp, the count and the uuid *)
Fixpoint lex_compare (a b : list Z) : comparison :=
  match a, b with
  | [], [] => Eq
  | [], _ :: _ => Lt
  | _ :: _, [] => Gt
  | x :: a', y :: b' =>
      match x ?= y with
      | Eq => lex_compare a' b'
      | c => c
      end
  end.

Definition key_fields (k : PartitionKey) : list Z :=
  [key_max_ts k; key_min_ts k; Z.of_nat (key_count k); Z.of_nat (key_uuid k)].

Definition key_le (k1 k2 : PartitionKey) : Prop :=
  lex_compare (key_fields k1) (key_fields k2) <> Gt.

#[export] Instance key_le_dec : RelDecision key_le.
Proof. intros a b. unfold key_le. apply _. Defined.

Definition key_lt (k1 k2 : PartitionKey) : Prop :=
  lex_compare (key_fields k1) (key_fields k2) = Lt.

#[export] Instance key_lt_dec : RelDecision key_lt.
Proof. intros a b. unfold key_lt. apply _. Defined.

Definition live_keys (w : World num) : list PartitionKey :=
  omap (fun k => match k with Live k => Some k | Unrecoverable _ => None end)
       (elements (dom (objects w))).

(** Modelled from the spec: utils.list_partitions_after is not among the
    sources; by section 4.4.1 it returns, sorted, all partition keys of the
    model from the start key onward.  A key sorts after the prefix when its
    max timestamp is at least that of the prefix. *)
Definition listed (start : KeyPrefix) (model : string) (w : World num)
  : list PartitionKey :=
  stable_sort key_le
    (filter (fun k => key_model k = model /\ prefix_max_ts start <= key_max_ts k)
            (live_keys w)).

Definition list_partitions_after (start : KeyPrefix) (model : string)
  : M num (list PartitionKey) := fun w => (Ok (listed start model w), w).

(* min() over the partitions' min_decision_id; comparing a null id with a
   str raises TypeError *)
Definition get_min_decision_id (partitions : list RDP) : result (option string) :=
  min_per_partitions ← mapM min_decision_id partitions;
  match min_per_partitions with
  | [] => Ok None
  | x :: rest =>
      fold_left (fun acc y =>
                   a ← acc;
                   match a, y with
                   | Some a', Some y' => Ok (Some (if decide (str_lt y' a') then y' else a'))
                   | _, _ => Raise TypeError
                   end)
                rest (Ok x)
  end.

(* the body of the loop over the overlaps *)
Definition repair_overlap (model_name : string) (overlap : IntervalDict) : M num unit :=
  let keys := get_unique_overlapping_keys overlap in
  if (1 <? length keys)%nat then
    dfs ← mapM (fun s3_key => read_parquet (Live s3_key)) keys;
    let df := pd_concat dfs in
    let RDP := RDP_init model_name df None in
    _ ← process RDP;
    (* s3client.delete_objects *)
    mapM (fun s3_key => delete_object (Live s3_key)) keys ≫= fun _ => mret tt
  else mret tt.

Fixpoint repair_overlaps (model_name : string) (overlaps : list IntervalDict) : M num unit :=
  match overlaps with
  | [] => mret tt
  | overlap :: overlaps' =>
      _ ← repair_overlap model_name overlap;
      repair_overlaps model_name overlaps'
  end.

(* repair_overlapping_keys from the listing on *)
Definition repair_listed (model_name : string) (train_s3_keys : list PartitionKey)
  : M num unit :=
  (* if there are no files in s3 yet there is nothing to fix *)
  if (length train_s3_keys <=? 1)%nat then mret tt
  else
    let train_s3_keys := reverse train_s3_keys in
    _ ← match head train_s3_keys, last train_s3_keys with
        | Some first, Some last_ => assert (bool_decide (key_lt last_ first))
        | _, _ => raise IndexError
        end;
    overlaps ← lift (get_all_overlaps train_s3_keys);
    repair_overlaps model_name overlaps.

Definition repair_overlapping_keys (model_name : string) (partitions : list RDP)
  : M num unit :=
  _ ← assert (forallb (fun p => String.eqb (partition.model_name p) model_name) partitions);
  min_decision_id ← lift (get_min_decision_id partitions);
  start ← lift (parquet_s3_key_prefix model_name min_decision_id);
  train_s3_keys ← list_partitions_after start model_name;
  repair_listed model_name train_s3_keys.

End Engine.

(** *** Store changes named by the properties *)

(* the store after load has quarantined the file under [key] *)
Definition quarantine {num} (key : PartitionKey) (s3_df : DataFrame num) (w : World num)
  : World num :=
  {| objects := delete (Live key) (<[Unrecoverable key := Parquet s3_df]> (objects w));
     next_uuid := next_uuid w |}.

(* the uuid of [key] was drawn before the state [w] *)
Definition fresh_above {num} (key : PartitionKey) (w : World num) : Prop :=
  (key_uuid key < next_uuid w)%nat.

(* [m] runs the same way before and after the quarantine of [key], and its
   writes commute with it; [Q] holds of the value it returns *)
Definition unaffected {num} (key : PartitionKey) (s3_df : DataFrame num)
    {A} (Q : A -> Prop) (m : M num A) : Prop :=
  forall w, fresh_above key w ->
    m (quarantine key s3_df w) = ((m w).1, quarantine key s3_df (m w).2) /\
    fresh_above key (m w).2 /\
    (forall a, (m w).1 = Ok a -> Q a).

(* an RDP that is not attached to [key] *)
Definition detached {num} (key : PartitionKey) (self : RewardedDecisionPartition num)
  : Prop :=
  s3_key self <> Some key.

(** *** Timestamps of well-formed decision ids *)

(* a k-id: 27 base62 characters that decode to 20 bytes *)
Definition is_ksuid (id : option string) : bool :=
  match id with
  | Some s =>
      (String.length s =? 27)%nat &&
      match base62_decode s 0 with
      | Ok n => n <? 2 ^ 160
      | Raise _ => false
      end
  | None => false
  end.

(* the timestamp of an id (0 where Ksuid.from_base62 raises) *)
Definition ts_of (id : option string) : Z :=
  match ksuid_timestamp id with
  | Ok t => t
  | Raise _ => 0
  end.

(* the interval that get_all_overlaps reads off a key *)
Definition interval_of (k : PartitionKey) : Interval :=
  closed (key_min_ts k) (key_max_ts k).

(* the key that save computes for a chunk when uuid4 returns [uuid] *)
Definition chunk_key {num} (model : string) (uuid : nat) (chunk : list (Row num))
  : PartitionKey :=
  {| key_model := model;
     key_max_ts := ts_of (default None (last (map decision_id chunk)));
     key_min_ts := ts_of (default None (head (map decision_id chunk)));
     key_count := length chunk;
     key_uuid := uuid |}.

(* the store after save has written [chunks] *)
Fixpoint write_chunks {num} (model : string) (with_rewards : bool)
    (chunks : list (list (Row num))) (w : World num) : World num :=
  match chunks with
  | [] => w
  | chunk :: chunks' =>
      write_chunks model with_rewards chunks'
        {| objects := <[Live (chunk_key model (next_uuid w) chunk) :=
                          Parquet {| has_rewards_column := with_rewards; rows := chunk |}]>
                        (objects w);
           next_uuid := S (next_uuid w) |}
  end.

(* every key of the store was named by an earlier uuid4 *)
Definition store_fresh {num} (w : World num) : Prop :=
  forall k, is_Some (objects w !! Live k) -> (key_uuid k < next_uuid w)%nat.

(** *** Phases on a partition that loads nothing *)

(* the partition that sort leaves for the frame [d] *)
Definition sorted_partition {num} (self : RewardedDecisionPartition num)
    (d : DataFrame num) : RewardedDecisionPartition num :=
  {| model_name := model_name self; df := Some (sort_values d); s3_key := s3_key self;
     sorted := true;
     _min_decision_id := default None (head (map decision_id (rows (sort_values d))));
     _max_decision_id := default None (last (map decision_id (rows (sort_values d)))) |}.

(* a chunk that save can name: it has rows, and their ids are k-ids *)
Definition good_chunk {num} (chunk : list (Row num)) : Prop :=
  chunk <> [] /\ forall r, r ∈ chunk -> is_ksuid (decision_id r) = true.

(** *** Intervals of keys and files *)

(* [a] lies within [b] *)
Definition sub_interval (a b : Interval) : Prop :=
  match a, b with
  | Empty, _ => True
  | Closed l u, Closed l' u' => l' <= l /\ u <= u'
  | Closed _ _, Empty => False
  end.

(* the bounds of an interval that is not empty are in order *)
Definition proper (a : Interval) : Prop :=
  match a with
  | Empty => True
  | Closed l u => l <= u
  end.

(* [a] ends before [b] begins, in the order of the lower bounds *)
Definition before (a b : Interval) : Prop :=
  overlaps a b = false /\ lower_le (lower a) (lower b).

(* the number of rows of the file under a key *)
Definition file_rows {num} (w : World num) (k : PartitionKey) : nat :=
  match objects w !! Live k with
  | Some (Parquet d) => length (rows d)
  | _ => 0%nat
  end.

(* the local invariant of a partition (section 3 of the spec): the
   timestamps of the rows of the file lie within the interval of its key *)
Definition file_within_key {num} (w : World num) (k : PartitionKey) : Prop :=
  forall d r, objects w !! Live k = Some (Parquet d) -> r ∈ rows d ->
    key_min_ts k <= ts_of (decision_id r) <= key_max_ts k.

(* the element that get_all_overlaps builds for one key *)
Definition single_overlap (key : PartitionKey) : IntervalDict :=
  {| domain := closed (key_min_ts key) (key_max_ts key); values := [key] |}.

(** *** The overlaps that repair computes *)

(* an overlap holds keys, within a domain that is in order *)
Definition good_overlap (x : IntervalDict) : Prop :=
  proper (domain x) /\ values x <> [] /\
  forall k, k ∈ values x -> sub_interval (interval_of k) (domain x).

(* the stack of get_all_overlaps, top first: every element lies before the
   elements above it, and holds the keys whose intervals it covers *)
Inductive overlap_stack : list IntervalDict -> Prop :=
| overlap_stack_nil : overlap_stack []
| overlap_stack_cons top st :
    overlap_stack st ->
    Forall (fun e => before (domain e) (domain top)) st ->
    proper (domain top) ->
    values top <> [] ->
    (forall k, k ∈ values top -> sub_interval (interval_of k) (domain top)) ->
    overlap_stack (top :: st).

End partition.

(** ** assign_rewards/join_rewards.py *)

Module join_rewards.

(* int(c, 16) on one character *)
Definition hex_digit (c : ascii) : option Z :=
  let n := Z.of_N (N_of_ascii c) in
  if (48 <=? n) && (n <=? 57) then Some (n - 48)
  else if (97 <=? n) && (n <=? 102) then Some (n - 87)
  else if (65 <=? n) && (n <=? 70) then Some (n - 55)
  else None.

Fixpoint hex_digits (s : string) (acc : Z) : result Z :=
  match s with
  | EmptyString => Ok acc
  | String c s' =>
      match hex_digit c with
      | Some d => hex_digits s' (16 * acc + d)
      | None => Raise ValueError
      end
  end.

(* int(s, 16) on a string of hexadecimal digits; the sign, 0x prefix,
   underscores and blanks that int also accepts are rendered as ValueError. *)
Definition int_hex (s : string) : result Z :=
  match s with
  | EmptyString => Raise ValueError
  | _ => hex_digits s 0
  end.

(* (int(f.name[:16], 16) % node_count) == node_id *)
Definition selects (name : string) (node_id node_count : Z) : result bool :=
  h ← int_hex (substring 0 16 name);
  if node_count =? 0 then Raise ZeroDivisionError
  else Ok (h mod node_count =? node_id).

(* [files] are the names matched by input_dir.glob('*.jsonl.gz'), in the
   order of the directory listing. *)
Fixpoint identify_incoming_files_to_process
    (files : list string) (node_id node_count : Z) : result (list string) :=
  match files with
  | [] => Ok []
  | f :: fs =>
      b ← selects f node_id node_count;
      rest ← identify_incoming_files_to_process fs node_id node_count;
      Ok (if b : bool then f :: rest else rest)
  end.

Definition is_hex (c : ascii) : bool :=
  match hex_digit c with Some _ => true | None => false end.

(* the file name begins with 16 hexadecimal characters *)
Definition starts_with_16_hex (name : string) : bool :=
  let p := substring 0 16 name in
  (String.length p =? 16)%nat && forallb is_hex (list_ascii_of_string p).

(* the workers of an array job of size node_count *)
Definition worker_ids (node_count : Z) : list Z :=
  map Z.of_nat (seq 0 (Z.to_nat node_count)).

(* the value hashed by the selection rule (0 where int raises) *)
Definition file_hash (name : string) : Z :=
  match int_hex (substring 0 16 name) with Ok h => h | Raise _ => 0 end.

End join_rewards.

(** ** Example data

    Decision ids are KSUIDs; the three below carry the timestamps
    1400000100 (twice, with different payloads) and 1400000050. *)

Module examples.
Import partition.

Definition id_A : string := "0000CZ8VZONcprN0RnGAqthKLUv".
Definition id_B : string := "0000CZ8VZONcprN0RnGAqthKLUw".
Definition id_C : string := "00006HZFmhBoPvgVDtd5QRqfAkT".

Definition example_row (id : string) (v : option string) (rw : option (json_text Z))
  : Row Z :=
  {| decision_id := Some id; timestamp := None; variant := v; givens := None;
     count := None; runners_up := None; sample := None; rewards := rw; reward := None |}.

Definition frame (l : list (Row Z)) : DataFrame Z :=
  {| has_rewards_column := true; rows := l |}.

(* a partition key of model m *)
Definition key (max_ts min_ts : Z) (count uuid : nat) : PartitionKey :=
  {| key_model := "m"; key_max_ts := max_ts; key_min_ts := min_ts;
     key_count := count; key_uuid := uuid |}.

(* an unreadable partition covering the seconds 1400000150 to 1400000200 *)
Definition old_key : PartitionKey := key 1400000200 1400000150 1 0.

Definition unreadable_store : World Z :=
  {| objects := {[ Live old_key := Unreadable ]}; next_uuid := 1 |}.

(* a reward for a decision of second 1400000100, planned onto old_key *)
Definition incoming_reward : RewardedDecisionPartition Z :=
  RDP_init "m" (frame [example_row id_A None (Some [("0ujtsYcgvSTl8PAuAdqWYSMnLOv", 1)])])
           (Some old_key).

(* a stored file with a row whose decision_id is null *)
Definition bad_frame : DataFrame Z :=
  frame [example_row id_A (Some "1") None;
         {| decision_id := None; timestamp := None; variant := None; givens := None;
            count := None; runners_up := None; sample := None; rewards := None;
            reward := None |}].

Definition bad_key : PartitionKey := key 1400000100 1400000100 2 0.

Definition bad_store : World Z :=
  {| objects := {[ Live bad_key := Parquet bad_frame ]}; next_uuid := 1 |}.

Definition bad_partition : RewardedDecisionPartition Z :=
  RDP_init "m" (frame [example_row id_B (Some "2") None]) (Some bad_key).

(* an RDP after process, whose batch began at the given decision id *)
Definition ingested (min_id max_id : string) : RewardedDecisionPartition Z :=
  {| model_name := "m"; df := None; s3_key := None; sorted := true;
     _min_decision_id := Some min_id; _max_decision_id := Some max_id |}.

(* a decision of second 1400000050 and a reward for it, in two partitions
   with the same interval, and a later partition *)
Definition key_X : PartitionKey := key 1400000050 1400000050 1 0.
Definition key_Y : PartitionKey := key 1400000050 1400000050 1 1.
Definition key_Z : PartitionKey := key 1400000100 1400000100 1 2.

Definition overlapping_store : World Z :=
  {| objects :=
       {[ Live key_X := Parquet (frame [example_row id_C (Some "1") None]);
          Live key_Y := Parquet (frame [example_row id_C None
                                          (Some [("0ujtsYcgvSTl8PAuAdqWYSMnLOv", 1)])]) ]};
     next_uuid := 2 |}.

Definition older_overlap_store : World Z :=
  {| objects := <[Live key_Z := Parquet (frame [example_row id_A (Some "2") None])]>
                  (objects overlapping_store);
     next_uuid := 3 |}.

(* two decisions of the same second, in two partitions *)
Definition same_second_store : World Z :=
  {| objects :=
       {[ Live (key 1400000100 1400000100 1 0)
            := Parquet (frame [example_row id_A (Some "1") None]);
          Live (key 1400000100 1400000100 1 1)
            := Parquet (frame [example_row id_B (Some "2") None]) ]};
     next_uuid := 2 |}.

End examples.

(** Validators standing in for utils.py in the examples. *)

(* a k-id is a string of 27 characters, a timestamp a number of seconds, a
   model name a non-empty string *)
Definition example_is_valid_ksuid (x : firehose_record.json) : bool :=
  match x with
  | firehose_record.JStr s => (String.length s =? 27)%nat
  | _ => false
  end.

Definition example_get_valid_timestamp (x : firehose_record.json)
  : result firehose_record.datetime :=
  match x with
  | firehose_record.JInt z =>
      Ok {| firehose_record.dt_seconds := z; firehose_record.dt_tzinfo := None |}
  | _ => Raise ValueError
  end.

Definition example_is_valid_model_name (x : firehose_record.json) : bool :=
  match x with
  | firehose_record.JStr s => negb (String.eqb s "")
  | _ => false
  end.

(* an event record that also carries an invalid count and decision_id *)
Definition example_event_record : gmap string firehose_record.json :=
  {[ "message_id"%string := firehose_record.JStr "0ujtsYcgvSTl8PAuAdqWYSMnLOv";
     "timestamp"%string := firehose_record.JInt 1507608047;
     "type"%string := firehose_record.JStr "event";
     "model"%string := firehose_record.JStr "songs";
     "count"%string := firehose_record.JInt 0;
     "decision_id"%string := firehose_record.JNull ]}.

(** * Properties *)

Section PartitionProperties.
Import partition.


(** ** The order on strings *)

Lemma str_compare_refl a : String_as_OT.compare a a = Eq.
Proof. destruct (String_as_OT.compare_spec a a) as [_|Hlt|Hlt]; [done| |];
  exfalso; by apply (StrictOrder_Irreflexive (R:=String_as_OT.lt) a). Qed.

Lemma str_compare_Gt a b :
  String_as_OT.compare a b = Gt <-> String_as_OT.compare b a = Lt.
Proof.
  destruct (String_as_OT.compare_spec a b) as [->|Hlt|Hlt]; unfold String_as_OT.lt in *.
  - rewrite str_compare_refl. split; discriminate.
  - split; [discriminate|]. intros Hba.
    exfalso. apply (StrictOrder_Irreflexive (R:=String_as_OT.lt) a).
    by etransitivity.
  - done.
Qed.

#[export] Instance str_le_refl : Reflexive str_le.
Proof. intros a. unfold str_le. by rewrite str_compare_refl. Qed.

#[export] Instance str_le_total : Total str_le.
Proof.
  intros a b. unfold str_le.
  destruct (String_as_OT.compare a b) eqn:E; [by left|by left|].
  right. apply str_compare_Gt in E. by rewrite E.
Qed.

#[export] Instance str_le_antisym : AntiSymm (=) str_le.
Proof.
  intros a b Hab Hba. unfold str_le in *.
  destruct (String_as_OT.compare_spec a b) as [->|Hlt|Hlt]; [done| |done].
  exfalso. apply Hba. by apply str_compare_Gt.
Qed.

#[export] Instance str_le_trans : Transitive str_le.
Proof.
  intros a b c Hab Hbc. unfold str_le in *.
  destruct (String_as_OT.compare_spec a b) as [->|Hlt|Hlt]; [done| |done].
  destruct (String_as_OT.compare_spec b c) as [<-|Hlt'|Hlt']; [|clear Hbc|done].
  - unfold String_as_OT.lt in Hlt. by rewrite Hlt.
  - assert (String_as_OT.lt a c) as Hac by (by etransitivity).
    unfold String_as_OT.lt in Hac. by rewrite Hac.
Qed.

Lemma sorted_keys_unique (l1 l2 : list string) :
  (forall k, k ∈ l1 <-> k ∈ l2) -> NoDup l1 -> NoDup l2 ->
  merge_sort str_le l1 = merge_sort str_le l2.
Proof.
  intros Hiff H1 H2.
  apply (Sorted_unique str_le).
  - apply Sorted_merge_sort, _.
  - apply Sorted_merge_sort, _.
  - rewrite !merge_sort_Permutation. by apply NoDup_Permutation.
Qed.

Lemma sorted_keys_fixed (l : list string) :
  Sorted str_le l -> merge_sort str_le l = l.
Proof.
  intros Hs. apply (Sorted_unique str_le); [apply Sorted_merge_sort, _|done|].
  apply merge_sort_Permutation.
Qed.

(** ** dicts *)

Section DictFacts.
Context {V : Type}.
Implicit Types (d : dict V) (k : string) (v : V).

Lemma dict_get_None d k : dict_get d k = None <-> k ∉ dict_keys d.
Proof.
  unfold dict_keys. induction d as [|[k' v'] d IH]; simpl.
  - split; [intros _; apply not_elem_of_nil|done].
  - rewrite not_elem_of_cons. destruct (decide (k' = k)) as [->|Hne].
    + split; [done|]. intros [? _]. done.
    + rewrite IH. split; [intros ?; split; [done|done]|intros [_ ?]; done].
Qed.

Lemma dict_get_is_Some d k : is_Some (dict_get d k) <-> k ∈ dict_keys d.
Proof.
  destruct (dict_get d k) eqn:E.
  - split; [intros _|eauto]. destruct (decide (k ∈ dict_keys d)) as [|Hn]; [done|].
    apply dict_get_None in Hn. congruence.
  - apply dict_get_None in E. split; [intros [? ?]; done|done].
Qed.

Lemma dict_get_set d k v k' :
  dict_get (dict_set d k v) k' = if decide (k = k') then Some v else dict_get d k'.
Proof.
  induction d as [|[k0 v0] d IH]; simpl.
  - done.
  - destruct (decide (k0 = k)) as [->|Hne]; simpl.
    + destruct (decide (k = k')); done.
    + rewrite IH. destruct (decide (k0 = k')) as [->|]; [|done].
      destruct (decide (k = k')); [congruence|done].
Qed.

Lemma dict_set_fresh d k v : k ∉ dict_keys d -> dict_set d k v = d ++ [(k, v)].
Proof.
  unfold dict_keys. induction d as [|[k0 v0] d IH]; simpl; [done|].
  rewrite not_elem_of_cons. intros [Hne Hnin].
  destruct (decide (k0 = k)); [congruence|]. simpl. f_equal. by apply IH.
Qed.

Lemma dict_keys_set_present d k v : k ∈ dict_keys d -> dict_keys (dict_set d k v) = dict_keys d.
Proof.
  unfold dict_keys. induction d as [|[k0 v0] d IH]; simpl.
  - intros Hin. by apply elem_of_nil in Hin.
  - intros Hin. destruct (decide (k0 = k)) as [->|Hne]; simpl; [done|].
    apply elem_of_cons in Hin as [->|Hin]; [done|]. f_equal. by apply IH.
Qed.

Lemma dict_keys_set d k v :
  dict_keys (dict_set d k v)
  = if decide (k ∈ dict_keys d) then dict_keys d else dict_keys d ++ [k].
Proof.
  destruct (decide (k ∈ dict_keys d)) as [Hin|Hnin].
  - by apply dict_keys_set_present.
  - rewrite dict_set_fresh by done. unfold dict_keys. by rewrite fmap_app.
Qed.

Lemma dict_set_NoDup d k v : NoDup (dict_keys d) -> NoDup (dict_keys (dict_set d k v)).
Proof.
  intros Hnd. rewrite dict_keys_set. destruct (decide (k ∈ dict_keys d)); [done|].
  apply NoDup_app. split; [done|]. split; [|apply NoDup_singleton].
  intros x Hx Hx'. apply list_elem_of_singleton in Hx'. by subst.
Qed.

Lemma dict_set_elem_of_keys d k v k' :
  k' ∈ dict_keys (dict_set d k v) <-> k' = k \/ k' ∈ dict_keys d.
Proof.
  rewrite <- !dict_get_is_Some, dict_get_set.
  destruct (decide (k = k')) as [->|Hne].
  - split; [by left|eauto].
  - split; [by right|]. intros [->|]; done.
Qed.

(* two dicts with the same keys in the same order and the same lookups *)
Lemma dict_eq d1 d2 :
  NoDup (dict_keys d1) -> dict_keys d1 = dict_keys d2 ->
  (forall k, k ∈ dict_keys d1 -> dict_get d1 k = dict_get d2 k) -> d1 = d2.
Proof.
  unfold dict_keys. revert d2. induction d1 as [|[k1 v1] d1 IH]; intros [|[k2 v2] d2]; simpl;
    try done.
  intros Hnd Hk Hg. inversion Hk; subst. apply NoDup_cons in Hnd as [Hnin Hnd].
  pose proof (Hg k2 ltac:(left)) as Hv. simpl in Hv.
  destruct (decide (k2 = k2)); [|done]. inversion Hv; subst. f_equal.
  apply IH; [done|done|].
  intros k Hin. specialize (Hg k ltac:(by right)). simpl in Hg.
  destruct (decide (k2 = k)) as [->|]; [done|done].
Qed.

(** *** loads *)

Lemma loads_acc_get (t : json_text V) : forall d k,
  dict_get (fold_left (fun d kv => dict_set d kv.1 kv.2) t d) k
  = match dict_get (reverse t) k with
    | Some v => Some v
    | None => dict_get d k
    end.
Proof.
  induction t as [|[k0 v0] t IH]; intros d k; simpl.
  - done.
  - rewrite IH, reverse_cons, dict_get_set. simpl.
    destruct (dict_get (reverse t) k) eqn:E.
    + assert (dict_get (reverse t ++ [(k0, v0)]) k = Some v) as ->; [|done].
      clear -E. induction (reverse t) as [|[a b] l IHl]; simpl in *; [done|].
      destruct (decide (a = k)); [done|]. by apply IHl.
    + assert (dict_get (reverse t ++ [(k0, v0)]) k
              = if decide (k0 = k) then Some v0 else None) as ->.
      { clear -E. induction (reverse t) as [|[a b] l IHl]; simpl in *; [done|].
        destruct (decide (a = k)); [done|]. by apply IHl. }
      destruct (decide (k0 = k)); done.
Qed.

Lemma loads_acc_NoDup (t : json_text V) : forall d,
  NoDup (dict_keys d) ->
  NoDup (dict_keys (fold_left (fun d kv => dict_set d kv.1 kv.2) t d)).
Proof.
  induction t as [|[k0 v0] t IH]; intros d Hd; simpl; [done|].
  apply IH. by apply dict_set_NoDup.
Qed.

Lemma loads_NoDup (t : json_text V) : NoDup (dict_keys (loads t)).
Proof. apply loads_acc_NoDup. apply NoDup_nil_2. Qed.

Lemma loads_acc_fresh (t : json_text V) : forall d,
  NoDup (dict_keys d ++ dict_keys t) ->
  fold_left (fun d kv => dict_set d kv.1 kv.2) t d = d ++ t.
Proof.
  induction t as [|[k0 v0] t IH]; intros d Hd; simpl.
  - by rewrite app_nil_r.
  - unfold dict_keys in Hd. simpl in Hd.
    rewrite dict_set_fresh.
    + rewrite IH; [by rewrite <- app_assoc|].
      unfold dict_keys. rewrite fmap_app. simpl. by rewrite <- app_assoc.
    + apply NoDup_app in Hd as (_ & Hdis & _). intros Hin.
      apply (Hdis k0 Hin). left.
Qed.

(* a text without repeated keys loads to itself *)
Lemma loads_NoDup_id (t : json_text V) : NoDup (dict_keys t) -> loads t = t.
Proof. intros Hnd. unfold loads. by rewrite loads_acc_fresh. Qed.

Lemma loads_elem_of_keys (t : json_text V) k : k ∈ dict_keys (loads t) <-> k ∈ dict_keys t.
Proof.
  rewrite <- !dict_get_is_Some. unfold loads. rewrite loads_acc_get. simpl.
  assert (is_Some (dict_get (reverse t) k) <-> is_Some (dict_get t k)) as <-.
  { rewrite !dict_get_is_Some. unfold dict_keys. rewrite fmap_reverse. apply elem_of_reverse. }
  destruct (dict_get (reverse t) k); [done|]. done.
Qed.

(** *** dict_from_keys *)

Lemma dict_from_keys_keys (g : string -> option V) ks :
  dict_keys (dict_from_keys g ks) = filter (fun k => is_Some (g k)) ks.
Proof.
  unfold dict_keys, dict_from_keys. induction ks as [|k ks IH]; simpl; [done|].
  rewrite filter_cons. destruct (g k) eqn:E; simpl.
  - destruct (decide (is_Some (Some v))) as [|Hn]; [|exfalso; eauto].
    f_equal. exact IH.
  - destruct (decide (is_Some (@None V))) as [[? ?]|]; [done|]. exact IH.
Qed.

Lemma dict_from_keys_get (g : string -> option V) ks k :
  dict_get (dict_from_keys g ks) k = if decide (k ∈ ks) then g k else None.
Proof.
  unfold dict_from_keys. induction ks as [|k0 ks IH]; simpl.
  - destruct (decide (k ∈ [])) as [Hin|]; [by apply elem_of_nil in Hin|done].
  - destruct (g k0) eqn:E; simpl.
    + destruct (decide (k0 = k)) as [->|Hne].
      * destruct (decide (k ∈ k :: ks)) as [|Hn]; [done|]. exfalso. apply Hn. left.
      * etrans; [exact IH|].
        destruct (decide (k ∈ ks)), (decide (k ∈ k0 :: ks)) as [Hin|Hn]; try done.
        -- exfalso. apply Hn. by right.
        -- apply elem_of_cons in Hin as [->|]; done.
    + etrans; [exact IH|].
      destruct (decide (k ∈ ks)), (decide (k ∈ k0 :: ks)) as [Hin|Hn]; try done.
      * exfalso. apply Hn. by right.
      * apply elem_of_cons in Hin as [->|]; [|done]. by rewrite E.
Qed.

Lemma dict_from_keys_NoDup (g : string -> option V) ks :
  NoDup ks -> NoDup (dict_keys (dict_from_keys g ks)).
Proof. intros Hnd. rewrite dict_from_keys_keys. by apply NoDup_filter. Qed.

Lemma dict_from_keys_ext (g1 g2 : string -> option V) ks :
  (forall k, k ∈ ks -> g1 k = g2 k) -> dict_from_keys g1 ks = dict_from_keys g2 ks.
Proof.
  unfold dict_from_keys. induction ks as [|k ks IH]; intros Hg; simpl; [done|].
  rewrite (Hg k ltac:(left)).
  assert (omap (fun k => (fun v => (k, v)) <$> g1 k) ks
          = omap (fun k => (fun v => (k, v)) <$> g2 k) ks) as Heq.
  { apply IH. intros k' Hin. apply Hg. by right. }
  destruct (g2 k); simpl; [f_equal|]; exact Heq.
Qed.

Lemma filter_all {A} (P : A -> Prop) `{forall x, Decision (P x)} (l : list A) :
  (forall x, x ∈ l -> P x) -> filter P l = l.
Proof.
  induction l as [|x l IH]; intros HP; [done|].
  rewrite filter_cons_True by (apply HP; left). f_equal. apply IH.
  intros y Hy. apply HP. by right.
Qed.

Lemma dict_from_keys_keys_total (g : string -> option V) ks :
  (forall k, k ∈ ks -> is_Some (g k)) -> dict_keys (dict_from_keys g ks) = ks.
Proof. intros Hg. rewrite dict_from_keys_keys. by apply filter_all. Qed.

(* a dict rebuilt from its own keys and lookups *)
Lemma dict_from_keys_self d :
  NoDup (dict_keys d) -> dict_from_keys (dict_get d) (dict_keys d) = d.
Proof.
  intros Hnd.
  assert (dict_keys (dict_from_keys (dict_get d) (dict_keys d)) = dict_keys d) as Hk.
  { apply dict_from_keys_keys_total. intros k. by rewrite dict_get_is_Some. }
  apply dict_eq; [by rewrite Hk|done|].
  intros k Hin. rewrite Hk in Hin. rewrite dict_from_keys_get.
  destruct (decide (k ∈ dict_keys d)); done.
Qed.

(** *** json_dumps *)

Lemma json_dumps_keys d : dict_keys (json_dumps d) = merge_sort str_le (dict_keys d).
Proof.
  apply dict_from_keys_keys_total. intros k Hin.
  apply dict_get_is_Some. by rewrite merge_sort_Permutation in Hin.
Qed.

Lemma json_dumps_get d k : dict_get (json_dumps d) k = dict_get d k.
Proof.
  unfold json_dumps. rewrite dict_from_keys_get.
  destruct (decide (k ∈ merge_sort str_le (dict_keys d))) as [|Hn]; [done|].
  rewrite merge_sort_Permutation in Hn. symmetry. by apply dict_get_None.
Qed.

Lemma json_dumps_NoDup d : NoDup (dict_keys d) -> NoDup (dict_keys (json_dumps d)).
Proof. intros Hnd. rewrite json_dumps_keys. by rewrite merge_sort_Permutation. Qed.

Lemma json_dumps_sorted d : Sorted str_le (dict_keys (json_dumps d)).
Proof. rewrite json_dumps_keys. apply Sorted_merge_sort, _. Qed.

(* the text depends only on the mapping, not on the insertion order *)
Lemma json_dumps_ext d1 d2 :
  NoDup (dict_keys d1) -> NoDup (dict_keys d2) ->
  (forall k, dict_get d1 k = dict_get d2 k) -> json_dumps d1 = json_dumps d2.
Proof.
  intros H1 H2 Hg. unfold json_dumps.
  rewrite (sorted_keys_unique (dict_keys d1) (dict_keys d2)); [|..|done|done].
  - by apply dict_from_keys_ext.
  - intros k. by rewrite <- !dict_get_is_Some, Hg.
Qed.

(* a canonical text is its own serialization *)
Lemma json_dumps_canonical (t : json_text V) :
  NoDup (dict_keys t) -> Sorted str_le (dict_keys t) -> json_dumps t = t.
Proof.
  intros Hnd Hs. unfold json_dumps. rewrite sorted_keys_fixed by done.
  by apply dict_from_keys_self.
Qed.

Lemma loads_json_dumps d : NoDup (dict_keys d) -> loads (json_dumps d) = json_dumps d.
Proof. intros Hnd. apply loads_NoDup_id. by apply json_dumps_NoDup. Qed.

(** *** ChainMap *)

Lemma ChainMap_get_is_Some (maps : list (dict V)) k :
  is_Some (ChainMap_get maps k) <-> exists m, m ∈ maps /\ k ∈ dict_keys m.
Proof.
  induction maps as [|m maps IH]; simpl.
  - split; [intros [? ?]; done|]. intros (m & Hm & _). by apply elem_of_nil in Hm.
  - destruct (dict_get m k) eqn:E.
    + split; [intros _|eauto]. exists m. split; [left|]. apply dict_get_is_Some. eauto.
    + rewrite IH. apply dict_get_None in E. split.
      * intros (m' & Hm' & Hk). exists m'. split; [by right|done].
      * intros (m' & Hm' & Hk). apply elem_of_cons in Hm' as [->|Hm']; [done|eauto].
Qed.

(* the value comes from the first map that has the key *)
Lemma ChainMap_get_first (pre post : list (dict V)) m k :
  (forall m', m' ∈ pre -> k ∉ dict_keys m') ->
  k ∈ dict_keys m ->
  ChainMap_get (pre ++ m :: post) k = dict_get m k.
Proof.
  intros Hpre Hin. induction pre as [|p pre IH]; simpl.
  - apply dict_get_is_Some in Hin as [v ->]. done.
  - assert (dict_get p k = None) as -> by (apply dict_get_None, Hpre; left).
    apply IH. intros m' Hm'. apply Hpre. by right.
Qed.

Lemma ChainMap_get_app (maps1 maps2 : list (dict V)) k :
  ChainMap_get (maps1 ++ maps2) k
  = match ChainMap_get maps1 k with
    | Some v => Some v
    | None => ChainMap_get maps2 k
    end.
Proof.
  induction maps1 as [|m maps1 IH]; simpl; [done|].
  destruct (dict_get m k); [done|]. apply IH.
Qed.

End DictFacts.

Lemma update_keys_spec (ks : list string) : forall (d : dict unit) k,
  (k ∈ dict_keys (fold_left (fun d k => dict_set d k tt) ks d) <-> k ∈ ks \/ k ∈ dict_keys d) /\
  (NoDup (dict_keys d) -> NoDup (dict_keys (fold_left (fun d k => dict_set d k tt) ks d))).
Proof.
  induction ks as [|k0 ks IH]; intros d k; simpl.
  - split; [|done]. split; [by right|]. intros [Hin|]; [by apply elem_of_nil in Hin|done].
  - destruct (IH (dict_set d k0 tt) k) as [IH1 IH2]. split.
    + rewrite IH1, dict_set_elem_of_keys, elem_of_cons. tauto.
    + intros Hnd. apply IH2. by apply dict_set_NoDup.
Qed.

Lemma ChainMap_iter_acc {V} (maps : list (dict V)) : forall (d : dict unit) k,
  (k ∈ dict_keys (fold_left (fun d m => fold_left (fun d k => dict_set d k tt) (dict_keys m) d)
                            maps d)
   <-> (exists m, m ∈ maps /\ k ∈ dict_keys m) \/ k ∈ dict_keys d) /\
  (NoDup (dict_keys d) ->
   NoDup (dict_keys (fold_left (fun d m => fold_left (fun d k => dict_set d k tt) (dict_keys m) d)
                               maps d))).
Proof.
  induction maps as [|m maps IH]; intros d k; simpl.
  - split; [|done]. split; [by right|].
    intros [(m & Hm & _)|]; [by apply elem_of_nil in Hm|done].
  - destruct (IH (fold_left (fun d k => dict_set d k tt) (dict_keys m) d) k) as [IH1 IH2].
    destruct (update_keys_spec (dict_keys m) d k) as [U1 U2]. split.
    + rewrite IH1, U1. split.
      * intros [(m' & Hm' & Hk)|[Hk|Hk]].
        -- left. exists m'. split; [by right|done].
        -- left. exists m. split; [left|done].
        -- by right.
      * intros [(m' & Hm' & Hk)|Hk]; [|by right; right].
        apply elem_of_cons in Hm' as [->|Hm']; [by right; left|left; eauto].
    + intros Hnd. by apply IH2, U2.
Qed.

Lemma ChainMap_iter_elem_of {V} (maps : list (dict V)) k :
  k ∈ ChainMap_iter maps <-> exists m, m ∈ maps /\ k ∈ dict_keys m.
Proof.
  unfold ChainMap_iter. destruct (ChainMap_iter_acc (reverse maps) [] k) as [-> _].
  split.
  - intros [(m & Hm & Hk)|Hk]; [|by apply elem_of_nil in Hk].
    exists m. by rewrite elem_of_reverse in Hm.
  - intros (m & Hm & Hk). left. exists m. by rewrite elem_of_reverse.
Qed.

Lemma ChainMap_iter_NoDup {V} (maps : list (dict V)) : NoDup (ChainMap_iter maps).
Proof.
  unfold ChainMap_iter. destruct (ChainMap_iter_acc (reverse maps) [] "") as [_ Hnd].
  apply Hnd. apply NoDup_nil_2.
Qed.

Lemma dict_of_ChainMap_get {V} (maps : list (dict V)) k :
  dict_get (dict_of_ChainMap maps) k = ChainMap_get maps k.
Proof.
  unfold dict_of_ChainMap. rewrite dict_from_keys_get.
  destruct (decide (k ∈ ChainMap_iter maps)) as [|Hn]; [done|].
  destruct (ChainMap_get maps k) eqn:E; [|done].
  exfalso. apply Hn. apply ChainMap_iter_elem_of, ChainMap_get_is_Some. eauto.
Qed.

Lemma dict_of_ChainMap_NoDup {V} (maps : list (dict V)) :
  NoDup (dict_keys (dict_of_ChainMap maps)).
Proof. apply dict_from_keys_NoDup, ChainMap_iter_NoDup. Qed.

(** ** Merge *)

Section MergeFacts.
Context {num : Type} `{Number num}.
Implicit Types (series : list (option (json_text num))) (df : DataFrame num).

Lemma dropna_app {A} (l1 l2 : list (option A)) : dropna (l1 ++ l2) = dropna l1 ++ dropna l2.
Proof. unfold dropna. apply omap_app. Qed.

Lemma elem_of_dropna {A} (l : list (option A)) x : x ∈ dropna l <-> Some x ∈ l.
Proof.
  unfold dropna. rewrite list_elem_of_omap. split.
  - intros (o & Ho & Hx). destruct o; simpl in Hx; [|done]. by inversion Hx; subst.
  - intros Hin. by exists (Some x).
Qed.

Lemma get_first_cell_head {A} (col : list (option A)) : get_first_cell col = head (dropna col).
Proof.
  unfold get_first_cell. destruct (isnull_all col) eqn:E; [|done].
  assert (dropna col = []) as ->.
  { induction col as [|[a|] col IH]; simpl in *; [done|done|]. by apply IH. }
  destruct col as [|[a|] col]; simpl in *; done.
Qed.

Lemma get_first_cell_singleton {A} (c : option A) : get_first_cell [c] = c.
Proof. rewrite get_first_cell_head. by destruct c. Qed.

Lemma get_first_cell_twice {A} (col : list (option A)) :
  get_first_cell (col ++ col) = get_first_cell col.
Proof.
  rewrite !get_first_cell_head, dropna_app. by destruct (dropna col).
Qed.

Lemma merge_rewards_get series k :
  dict_get (merge_rewards series) k = ChainMap_get (map loads (dropna series)) k.
Proof. unfold merge_rewards. by rewrite json_dumps_get, dict_of_ChainMap_get. Qed.

Lemma merge_rewards_NoDup series : NoDup (dict_keys (merge_rewards series)).
Proof. apply json_dumps_NoDup, dict_of_ChainMap_NoDup. Qed.

Lemma merge_rewards_sorted series : Sorted str_le (dict_keys (merge_rewards series)).
Proof. apply json_dumps_sorted. Qed.

Lemma loads_merge_rewards series : loads (merge_rewards series) = merge_rewards series.
Proof. apply loads_NoDup_id, merge_rewards_NoDup. Qed.

Lemma merge_rewards_elem_of_keys series k :
  k ∈ dict_keys (merge_rewards series) <-> exists t, Some t ∈ series /\ k ∈ dict_keys t.
Proof.
  rewrite <- dict_get_is_Some, merge_rewards_get, ChainMap_get_is_Some. split.
  - intros (m & Hm & Hk). apply list_elem_of_fmap in Hm as (t & -> & Ht).
    exists t. split; [by apply elem_of_dropna|by apply loads_elem_of_keys].
  - intros (t & Ht & Hk). exists (loads t). split; [|by apply loads_elem_of_keys].
    apply list_elem_of_fmap. exists t. split; [done|by apply elem_of_dropna].
Qed.

(* merging an already merged cell gives it back *)
Lemma merge_rewards_singleton series :
  merge_rewards [Some (merge_rewards series)] = merge_rewards series.
Proof.
  set (t := merge_rewards series).
  assert (NoDup (dict_keys t)) as Hnd by apply merge_rewards_NoDup.
  rewrite <- (json_dumps_canonical t Hnd (merge_rewards_sorted series)) at 2.
  unfold merge_rewards. apply json_dumps_ext; [apply dict_of_ChainMap_NoDup|done|].
  intros k. rewrite dict_of_ChainMap_get. simpl.
  rewrite (loads_NoDup_id t Hnd). by destruct (dict_get t k).
Qed.

Lemma merge_rewards_twice series : merge_rewards (series ++ series) = merge_rewards series.
Proof.
  unfold merge_rewards. apply json_dumps_ext; try apply dict_of_ChainMap_NoDup.
  intros k. rewrite !dict_of_ChainMap_get, dropna_app, map_app, ChainMap_get_app.
  by destruct (ChainMap_get _ k).
Qed.

Lemma sum_rewards_singleton series :
  sum_rewards [Some (merge_rewards series)] = sum_rewards series.
Proof. unfold sum_rewards. by rewrite merge_rewards_singleton. Qed.

Lemma sum_rewards_twice series : sum_rewards (series ++ series) = sum_rewards series.
Proof. unfold sum_rewards. by rewrite merge_rewards_twice. Qed.

(** *** groupby *)

Lemma group_keys_elem_of (l : list (Row num)) k :
  k ∈ group_keys l <-> exists r, r ∈ l /\ decision_id r = Some k.
Proof.
  unfold group_keys. rewrite merge_sort_Permutation, elem_of_remove_dups, elem_of_dropna,
    list_elem_of_fmap. split; intros (r & ? & ?); exists r; done.
Qed.

Lemma group_keys_NoDup (l : list (Row num)) : NoDup (group_keys l).
Proof. unfold group_keys. rewrite merge_sort_Permutation. apply NoDup_remove_dups. Qed.

Lemma group_keys_sorted (l : list (Row num)) : Sorted str_le (group_keys l).
Proof. apply Sorted_merge_sort, _. Qed.

Lemma group_keys_ext (l1 l2 : list (Row num)) :
  (forall k, (exists r, r ∈ l1 /\ decision_id r = Some k) <->
             (exists r, r ∈ l2 /\ decision_id r = Some k)) ->
  group_keys l1 = group_keys l2.
Proof.
  intros Hiff. apply (Sorted_unique str_le); try apply group_keys_sorted.
  apply NoDup_Permutation; try apply group_keys_NoDup.
  intros k. by rewrite !group_keys_elem_of.
Qed.

Lemma group_rows_decision_id k (l : list (Row num)) r :
  r ∈ group_rows k l -> decision_id r = Some k.
Proof. unfold group_rows. rewrite list_elem_of_filter. by intros [? _]. Qed.

Lemma group_rows_nonempty k (l : list (Row num)) :
  k ∈ group_keys l -> group_rows k l <> [].
Proof.
  rewrite group_keys_elem_of. intros (r & Hr & Hk) Hnil.
  assert (r ∈ group_rows k l) as Hin by (by apply list_elem_of_filter).
  rewrite Hnil in Hin. by apply elem_of_nil in Hin.
Qed.

Lemma aggregate_decision_id b k (l : list (Row num)) :
  k ∈ group_keys l -> decision_id (aggregate b (group_rows k l)) = Some k.
Proof.
  intros Hk. simpl. rewrite get_first_cell_head.
  pose proof (group_rows_nonempty k l Hk) as Hne.
  pose proof (group_rows_decision_id k l) as Hid.
  destruct (group_rows k l) as [|r g]; [done|]. simpl.
  rewrite (Hid r ltac:(left)). done.
Qed.

Lemma merge_frame_ids df :
  map decision_id (rows (merge_frame df)) = map Some (group_keys (rows df)).
Proof.
  simpl. rewrite map_map. apply map_ext_in. intros k Hk.
  apply aggregate_decision_id. by apply list_elem_of_In.
Qed.

Lemma dropna_Some {A} (l : list A) : dropna (map Some l) = l.
Proof. induction l as [|x l IH]; [done|]. simpl. f_equal. exact IH. Qed.

Lemma remove_dups_NoDup {A} `{EqDecision A} (l : list A) : NoDup l -> remove_dups l = l.
Proof.
  induction 1 as [|x l Hx Hnd IH]; simpl; [done|].
  destruct (decide_rel elem_of x l); [done|]. by rewrite IH.
Qed.

Lemma merge_frame_group_keys df :
  group_keys (rows (merge_frame df)) = group_keys (rows df).
Proof.
  unfold group_keys at 1. rewrite merge_frame_ids, dropna_Some.
  rewrite remove_dups_NoDup by apply group_keys_NoDup.
  apply sorted_keys_fixed, group_keys_sorted.
Qed.

Lemma filter_map_key_absent {A} (f : string -> A) (key : A -> option string)
    (ks : list string) k :
  (forall k', k' ∈ ks -> key (f k') = Some k') -> k ∉ ks ->
  filter (fun r => key r = Some k) (map f ks) = [].
Proof.
  induction ks as [|k1 ks IH]; intros Hkey Hk; [done|].
  apply not_elem_of_cons in Hk as [Hne Hk]. simpl. rewrite filter_cons_False.
  - apply IH; [|done]. intros; apply Hkey; by right.
  - rewrite (Hkey k1 ltac:(left)). intros [= ->]. done.
Qed.

Lemma filter_map_key {A} (f : string -> A) (key : A -> option string) (ks : list string) k :
  (forall k', k' ∈ ks -> key (f k') = Some k') -> NoDup ks -> k ∈ ks ->
  filter (fun r => key r = Some k) (map f ks) = [f k].
Proof.
  intros Hkey Hnd. induction Hnd as [|k0 ks Hk0 Hnd IH]; intros Hin.
  - by apply elem_of_nil in Hin.
  - simpl. rewrite filter_cons.
    assert (forall k', k' ∈ ks -> key (f k') = Some k') as Hkey'
      by (intros; apply Hkey; by right).
    destruct (decide (k0 = k)) as [->|Hne].
    + destruct (decide (key (f k) = Some k)) as [_|Hn]; [|exfalso; apply Hn, Hkey; left].
      f_equal. by apply filter_map_key_absent.
    + apply elem_of_cons in Hin as [->|Hin]; [done|].
      rewrite (Hkey k0 ltac:(left)).
      destruct (decide (Some k0 = Some k)) as [[= ->]|_]; [done|]. by apply IH.
Qed.

Lemma merge_frame_group_rows df k :
  k ∈ group_keys (rows df) ->
  group_rows k (rows (merge_frame df))
  = [aggregate (has_rewards_column df) (group_rows k (rows df))].
Proof.
  intros Hk. unfold group_rows at 1. simpl.
  apply (filter_map_key
           (fun k => aggregate (has_rewards_column df) (group_rows k (rows df)))
           decision_id); [|apply group_keys_NoDup|done].
  intros k' Hk'. by apply aggregate_decision_id.
Qed.

Lemma aggregate_singleton b (g : list (Row num)) :
  aggregate b [aggregate b g] = aggregate b g.
Proof.
  unfold aggregate. cbn [map decision_id timestamp variant givens count runners_up sample
                          rewards reward].
  rewrite !get_first_cell_singleton.
  destruct b; [|done].
  by rewrite merge_rewards_singleton, sum_rewards_singleton.
Qed.

Lemma aggregate_twice b (g : list (Row num)) : aggregate b (g ++ g) = aggregate b g.
Proof.
  unfold aggregate. rewrite !map_app, !get_first_cell_twice.
  by rewrite merge_rewards_twice, sum_rewards_twice.
Qed.

End MergeFacts.

Section MergeClaims.
Context {num : Type} `{Number num}.
Implicit Types (series : list (option (json_text num))) (df : DataFrame num).

Lemma aggregate_without_rewards (g : list (Row num)) :
  aggregate false (map without_rewards g) = aggregate false g.
Proof. unfold aggregate. by rewrite !map_map. Qed.

Lemma group_keys_without_rewards (l : list (Row num)) :
  group_keys (map without_rewards l) = group_keys l.
Proof. unfold group_keys. by rewrite map_map. Qed.

Lemma group_rows_without_rewards k (l : list (Row num)) :
  group_rows k (map without_rewards l) = map without_rewards (group_rows k l).
Proof.
  unfold group_rows. induction l as [|r l IH]; [done|].
  simpl. rewrite !filter_cons. simpl.
  destruct (decide (decision_id r = Some k)); simpl; by rewrite IH.
Qed.

Lemma merge_frame_fixed df : merge_frame (merge_frame df) = merge_frame df.
Proof.
  unfold merge_frame at 1. rewrite merge_frame_group_keys.
  transitivity {| has_rewards_column := has_rewards_column df;
                  rows := map (fun k => aggregate (has_rewards_column df)
                                          (group_rows k (rows df)))
                              (group_keys (rows df)) |}; [|done].
  f_equal. apply map_ext_in. intros k Hk. apply list_elem_of_In in Hk.
  rewrite merge_frame_group_rows by done. apply aggregate_singleton.
Qed.

Lemma merge_frame_duplicate df : merge_frame (pd_concat [df; df]) = merge_frame df.
Proof.
  unfold merge_frame, pd_concat, visible_rows. simpl.
  rewrite orb_false_r, orb_diag, app_nil_r. f_equal.
  destruct (has_rewards_column df) eqn:Hb.
  - rewrite (group_keys_ext (rows df ++ rows df) (rows df)).
    + apply map_ext. intros k. unfold group_rows. rewrite filter_app. apply aggregate_twice.
    + intros k. split; intros (r & Hr & Hid); exists r; (split; [|done]).
      * apply elem_of_app in Hr. tauto.
      * apply elem_of_app. by left.
  - rewrite (group_keys_ext (map without_rewards (rows df) ++ map without_rewards (rows df))
                            (map without_rewards (rows df))).
    + rewrite group_keys_without_rewards.
      apply map_ext. intros k. unfold group_rows at 1. rewrite filter_app.
      rewrite aggregate_twice. fold (group_rows k (map without_rewards (rows df))).
      by rewrite group_rows_without_rewards, aggregate_without_rewards.
    + intros k. split; intros (r & Hr & Hid); exists r; (split; [|done]).
      * apply elem_of_app in Hr. tauto.
      * apply elem_of_app. by left.
Qed.

(** C1: merge is idempotent.  Merging a merged table gives the same table,
    row for row, and merging a batch concatenated with a duplicate of itself
    gives the same table as merging the batch once. *)
Theorem merge_idempotent df :
  merge_frame (merge_frame df) = merge_frame df /\
  merge_frame (pd_concat [df; df]) = merge_frame df.
Proof. split; [apply merge_frame_fixed|apply merge_frame_duplicate]. Qed.

(** C2: in every row of a merged table, the reward cell is the numeric sum
    of the values of the rewards map of that row, which is the shallow merge
    of the maps of the rows sharing the decision_id. *)
Theorem reward_is_sum_of_merged_rewards df (r : Row num) :
  has_rewards_column df = true ->
  r ∈ rows (merge_frame df) ->
  exists k text,
    decision_id r = Some k /\
    rewards r = Some text /\
    (forall key,
       dict_get (loads text) key
       = ChainMap_get (map loads (dropna (map rewards (group_rows k (rows df))))) key) /\
    reward r = Some (num_float (py_sum (dict_values (loads text)))).
Proof.
  intros Hb Hr. simpl in Hr. rewrite Hb in Hr.
  apply list_elem_of_fmap in Hr as (k & -> & Hk).
  exists k, (merge_rewards (map rewards (group_rows k (rows df)))).
  split; [by apply aggregate_decision_id|]. split; [done|]. split; [|done].
  intros key. by rewrite loads_merge_rewards, merge_rewards_get.
Qed.

End MergeClaims.

Section SortFacts.
Context {A : Type} (le : A -> A -> Prop) `{!RelDecision le}.

Lemma insert_sorted_Permutation x (l : list A) : insert_sorted le x l ≡ₚ x :: l.
Proof.
  induction l as [|y l IH]; simpl; [done|].
  destruct (decide (le x y)); [done|]. rewrite IH. apply Permutation_swap.
Qed.

Lemma stable_sort_Permutation (l : list A) : stable_sort le l ≡ₚ l.
Proof.
  induction l as [|x l IH]; simpl; [done|].
  rewrite insert_sorted_Permutation. by rewrite IH.
Qed.

End SortFacts.

Section CommuteFacts.
Context {num : Type} `{Number num}.

Lemma dropna_Permutation {A} (l1 l2 : list (option A)) :
  l1 ≡ₚ l2 -> dropna l1 ≡ₚ dropna l2.
Proof. intros Hp. unfold dropna. by rewrite Hp. Qed.

Lemma get_first_cell_Permutation {A} (l1 l2 : list (option A)) :
  l1 ≡ₚ l2 ->
  (forall a b, Some a ∈ l1 -> Some b ∈ l1 -> a = b) ->
  get_first_cell l1 = get_first_cell l2.
Proof.
  intros Hp Hag. rewrite !get_first_cell_head.
  pose proof (dropna_Permutation l1 l2 Hp) as Hd.
  destruct (dropna l1) as [|x d1] eqn:E1.
  - apply Permutation_nil_l in Hd. by rewrite Hd.
  - destruct (dropna l2) as [|y d2] eqn:E2.
    + by apply Permutation_nil_r in Hd.
    + simpl. f_equal. apply Hag.
      * apply elem_of_dropna. rewrite E1. left.
      * apply elem_of_dropna. rewrite E1, Hd. left.
Qed.

Lemma ChainMap_get_elem {V} (maps : list (dict V)) k v :
  ChainMap_get maps k = Some v -> exists m, m ∈ maps /\ dict_get m k = Some v.
Proof.
  induction maps as [|m maps IH]; simpl; [done|].
  destruct (dict_get m k) eqn:E.
  - intros [= ->]. exists m. split; [left|done].
  - intros Hg. destruct (IH Hg) as (m' & Hm' & Hk). exists m'. split; [by right|done].
Qed.

Lemma ChainMap_get_Permutation {V} (maps1 maps2 : list (dict V)) k :
  maps1 ≡ₚ maps2 ->
  (forall m m' v v', m ∈ maps1 -> m' ∈ maps1 ->
     dict_get m k = Some v -> dict_get m' k = Some v' -> v = v') ->
  ChainMap_get maps1 k = ChainMap_get maps2 k.
Proof.
  intros Hp Hag.
  destruct (ChainMap_get maps1 k) as [v1|] eqn:E1, (ChainMap_get maps2 k) as [v2|] eqn:E2.
  - apply ChainMap_get_elem in E1 as (m1 & Hm1 & Hg1).
    apply ChainMap_get_elem in E2 as (m2 & Hm2 & Hg2).
    f_equal. apply (Hag m1 m2); [done|by rewrite Hp|done|done].
  - exfalso. assert (is_Some (ChainMap_get maps2 k)) as [? ?]; [|congruence].
    apply ChainMap_get_is_Some.
    assert (is_Some (ChainMap_get maps1 k)) as Hs by eauto.
    apply ChainMap_get_is_Some in Hs as (m & Hm & Hk). exists m. by rewrite <- Hp.
  - exfalso. assert (is_Some (ChainMap_get maps1 k)) as [? ?]; [|congruence].
    apply ChainMap_get_is_Some.
    assert (is_Some (ChainMap_get maps2 k)) as Hs by eauto.
    apply ChainMap_get_is_Some in Hs as (m & Hm & Hk). exists m. by rewrite Hp.
  - done.
Qed.

Lemma merge_rewards_Permutation (s1 s2 : list (option (json_text num))) :
  s1 ≡ₚ s2 ->
  (forall c1 c2, c1 ∈ s1 -> c2 ∈ s1 -> rewards_agree c1 c2) ->
  merge_rewards s1 = merge_rewards s2.
Proof.
  intros Hp Hag. unfold merge_rewards.
  apply json_dumps_ext; try apply dict_of_ChainMap_NoDup.
  intros k. rewrite !dict_of_ChainMap_get.
  apply ChainMap_get_Permutation.
  - apply fmap_Permutation. by apply dropna_Permutation.
  - intros m m' v v' Hm Hm' Hg Hg'.
    apply list_elem_of_fmap in Hm as (t & -> & Ht).
    apply list_elem_of_fmap in Hm' as (t' & -> & Ht').
    apply elem_of_dropna in Ht, Ht'.
    by apply (Hag (Some t) (Some t') Ht Ht' t t' k v v').
Qed.

Lemma aggregate_Permutation b (g1 g2 : list (Row num)) :
  g1 ≡ₚ g2 ->
  (forall r1 r2, r1 ∈ g1 -> r2 ∈ g1 -> rows_agree r1 r2) ->
  (forall r1 r2, r1 ∈ g1 -> r2 ∈ g1 -> decision_id r1 = decision_id r2) ->
  aggregate b g1 = aggregate b g2.
Proof.
  intros Hp Hag Hid.
  assert (forall {A} (col : Row num -> option A),
            (forall r1 r2, r1 ∈ g1 -> r2 ∈ g1 -> cells_agree (col r1) (col r2)) ->
            get_first_cell (map col g1) = get_first_cell (map col g2)) as Hcol.
  { intros A col Hc. apply get_first_cell_Permutation; [by apply fmap_Permutation|].
    intros a a' Ha Ha'.
    apply list_elem_of_fmap in Ha as (r & Hr & Hin).
    apply list_elem_of_fmap in Ha' as (r' & Hr' & Hin').
    by apply (Hc r r' Hin Hin'). }
  assert (merge_rewards (map rewards g1) = merge_rewards (map rewards g2)) as Hmr.
  { apply merge_rewards_Permutation; [by apply fmap_Permutation|].
    intros c1 c2 Hc1 Hc2.
    apply list_elem_of_fmap in Hc1 as (r & -> & Hin).
    apply list_elem_of_fmap in Hc2 as (r' & -> & Hin').
    apply (Hag r r' Hin Hin'). }
  unfold aggregate. unfold sum_rewards. rewrite Hmr.
  rewrite (Hcol _ decision_id), (Hcol _ timestamp), (Hcol _ variant), (Hcol _ givens),
    (Hcol _ count), (Hcol _ runners_up), (Hcol _ sample); [done|..];
    intros r1 r2 H1 H2; try apply (Hag r1 r2 H1 H2).
  intros a a' Ha Ha'. rewrite (Hid r1 r2 H1 H2) in Ha. congruence.
Qed.

Lemma merge_rows_Permutation b (l1 l2 : list (Row num)) :
  l1 ≡ₚ l2 -> consistent_rows l1 ->
  map (fun k => aggregate b (group_rows k l1)) (group_keys l1)
  = map (fun k => aggregate b (group_rows k l2)) (group_keys l2).
Proof.
  intros Hp Hc.
  rewrite (group_keys_ext l1 l2).
  - apply map_ext. intros k. apply aggregate_Permutation.
    + unfold group_rows. by rewrite Hp.
    + intros r1 r2 H1 H2.
      pose proof (group_rows_decision_id k l1 r1 H1) as E1.
      pose proof (group_rows_decision_id k l1 r2 H2) as E2.
      unfold group_rows in H1, H2. apply list_elem_of_filter in H1 as [_ H1], H2 as [_ H2].
      apply Hc; [done|done|congruence].
    + intros r1 r2 H1 H2.
      rewrite (group_rows_decision_id k l1 r1 H1), (group_rows_decision_id k l1 r2 H2). done.
  - intros k. split; intros (r & Hr & Hid); exists r; (split; [|done]).
    + by rewrite <- Hp.
    + by rewrite Hp.
Qed.

Lemma consistent_rows_Permutation (l1 l2 : list (Row num)) :
  l1 ≡ₚ l2 -> consistent_rows l1 -> consistent_rows l2.
Proof.
  intros Hp Hc r1 r2 H1 H2. apply Hc; by rewrite Hp.
Qed.

End CommuteFacts.

Section MergeClaims2.
Context {num : Type} `{Number num}.

(** C3 (amended): the rewards maps of a group are shallow-merged into one
    map, whose keys are the keys of all present maps; when several maps
    hold the same reward message_id, the value kept is that of the first
    map in row order that holds it. *)
Theorem merge_rewards_first_writer
    (earlier later : list (option (json_text num))) (t : json_text num)
    (k : string) (v : num) :
  (forall t', Some t' ∈ earlier -> k ∉ dict_keys t') ->
  dict_get (loads t) k = Some v ->
  let series := earlier ++ Some t :: later in
  (forall key, key ∈ dict_keys (loads (merge_rewards series))
               <-> exists t', Some t' ∈ series /\ key ∈ dict_keys t') /\
  dict_get (loads (merge_rewards series)) k = Some v.
Proof.
  intros Hpre Hv series. split.
  - intros key. rewrite loads_merge_rewards. apply merge_rewards_elem_of_keys.
  - rewrite loads_merge_rewards, merge_rewards_get. subst series.
    rewrite dropna_app, map_app. simpl.
    rewrite ChainMap_get_first; [done| |].
    + intros m Hm. apply list_elem_of_fmap in Hm as (t' & -> & Ht').
      rewrite loads_elem_of_keys. apply Hpre. by apply elem_of_dropna.
    + apply dict_get_is_Some. eauto.
Qed.

(** C4 (amended): when the records of each decision carry equal values,
    every permutation of a batch merges to the same table, whatever order
    the sort leaves among equal decision_ids. *)
Theorem merge_commutative_on_consistent_batches (df df' : DataFrame num) :
  has_rewards_column df' = has_rewards_column df ->
  rows df' ≡ₚ rows df ->
  consistent_rows (rows df) ->
  merge_frame (sort_values df') = merge_frame (sort_values df) /\
  merge_frame df' = merge_frame df.
Proof.
  intros Hb Hp Hc. split.
  - unfold merge_frame, sort_values. simpl. rewrite Hb. f_equal.
    apply merge_rows_Permutation.
    + by rewrite !stable_sort_Permutation.
    + apply (consistent_rows_Permutation (rows df)); [|done].
      by rewrite stable_sort_Permutation.
  - unfold merge_frame. rewrite Hb. f_equal.
    apply merge_rows_Permutation; [done|].
    by apply (consistent_rows_Permutation (rows df)).
Qed.

End MergeClaims2.

(* Two rewards with one message_id and different values: the merged map
   keeps the value of the earlier row, not of the later one. *)
Lemma merge_rewards_not_last_writer :
  let earlier : json_text Z := [("0ujtsYcgvSTl8PAuAdqWYSMnLOv", 1)]%string%Z in
  let later : json_text Z := [("0ujtsYcgvSTl8PAuAdqWYSMnLOv", 2)]%string%Z in
  dict_get (loads (merge_rewards [Some earlier; Some later])) "0ujtsYcgvSTl8PAuAdqWYSMnLOv"
  = Some 1%Z /\
  dict_get (loads later) "0ujtsYcgvSTl8PAuAdqWYSMnLOv" = Some 2%Z /\
  dict_get (loads (merge_rewards [Some earlier; Some later])) "0ujtsYcgvSTl8PAuAdqWYSMnLOv"
  <> dict_get (loads later) "0ujtsYcgvSTl8PAuAdqWYSMnLOv".
Proof. vm_compute. repeat split; congruence. Qed.

Lemma merge_rewards_first_writer_witness :
  let series : list (option (json_text Z)) :=
    [None] ++ Some [("r1", 1); ("r2", 5)]%string%Z :: [Some [("r1", 2)]%string%Z] in
  (forall key, key ∈ dict_keys (loads (merge_rewards series))
               <-> exists t', Some t' ∈ series /\ key ∈ dict_keys t') /\
  dict_get (loads (merge_rewards series)) "r1" = Some 1%Z.
Proof.
  apply (merge_rewards_first_writer [None] [Some [("r1", 2%Z)]]
           [("r1", 1%Z); ("r2", 5%Z)] "r1" 1%Z).
  - intros t' Ht'. apply list_elem_of_singleton in Ht'. discriminate.
  - reflexivity.
Defined.

(* Two records of one decision with different variants: the merged table
   depends on their order in the batch. *)
Lemma merge_not_commutative :
  let a := examples.example_row "0ujtsYcgvSTl8PAuAdqWYSMnLOv" (Some "1") None in
  let b := examples.example_row "0ujtsYcgvSTl8PAuAdqWYSMnLOv" (Some "2") None in
  let df := {| has_rewards_column := true; rows := [a; b] |} in
  let df' := {| has_rewards_column := true; rows := [b; a] |} in
  rows df' ≡ₚ rows df /\
  merge_frame (sort_values df') <> merge_frame (sort_values df).
Proof.
  split.
  - apply Permutation_swap.
  - vm_compute. congruence.
Qed.

Lemma merge_commutative_on_consistent_batches_witness :
  let a := examples.example_row "0ujtsYcgvSTl8PAuAdqWYSMnLOv" (Some "1") None in
  let b := examples.example_row "0ujtsYcgvSTl8PAuAdqWYSMnLOv" None (Some [("r", 3%Z)]) in
  let df := {| has_rewards_column := true; rows := [a; b] |} in
  let df' := {| has_rewards_column := true; rows := [b; a] |} in
  merge_frame (sort_values df') = merge_frame (sort_values df) /\
  merge_frame df' = merge_frame df.
Proof.
  apply merge_commutative_on_consistent_batches.
  - reflexivity.
  - apply Permutation_swap.
  - intros r1 r2 H1 H2 _.
    apply elem_of_cons in H1 as [->|H1]; [|apply list_elem_of_singleton in H1 as ->];
    (apply elem_of_cons in H2 as [->|H2]; [|apply list_elem_of_singleton in H2 as ->]);
    repeat split; intros ?; intros; simpl in *; congruence.
Defined.

Lemma reward_is_sum_of_merged_rewards_witness :
  let df := {| has_rewards_column := true;
               rows := [examples.example_row "0ujtsYcgvSTl8PAuAdqWYSMnLOv" (Some "1")
                          (Some [("r1", 2%Z)]);
                        examples.example_row "0ujtsYcgvSTl8PAuAdqWYSMnLOv" None
                          (Some [("r2", 3%Z)])] |} in
  let r := {| decision_id := Some "0ujtsYcgvSTl8PAuAdqWYSMnLOv"%string; timestamp := None;
              variant := Some "1"%string; givens := None; count := None;
              runners_up := None; sample := None;
              rewards := Some [("r1", 2%Z); ("r2", 3%Z)]%string;
              reward := Some 5%Z |} in
  exists k text,
    decision_id r = Some k /\
    rewards r = Some text /\
    (forall key,
       dict_get (loads text) key
       = ChainMap_get (map loads (dropna (map rewards (group_rows k (rows df))))) key) /\
    reward r = Some (num_float (py_sum (dict_values (loads text)))).
Proof.
  apply reward_is_sum_of_merged_rewards; [reflexivity|].
  vm_compute. left.
Defined.
(** ** split *)

Lemma ceil_div_spec n m :
  (1 <= m -> n <= ceil_div n m * m /\ (1 <= n -> (ceil_div n m - 1) * m < n))%nat.
Proof.
  intros Hm. unfold ceil_div.
  pose proof (Nat.div_mod_eq n m) as E.
  pose proof (Nat.mod_upper_bound n m ltac:(lia)) as B.
  destruct (Nat.eqb_spec (n mod m) 0) as [H0|H0]; split; nia.
Qed.

Lemma iloc_chain {A} (l : list A) (f : nat -> nat) c :
  f 0%nat = 0%nat -> (forall i, (i < c)%nat -> (f i <= f (S i))%nat) ->
  concat (map (fun i => iloc l (f i) (f (S i))) (seq 0 c)) = take (f c) l.
Proof.
  intros H0 Hmono. induction c as [|c IH].
  - simpl. rewrite H0. by rewrite take_0.
  - rewrite seq_S, map_app, concat_app. simpl. rewrite app_nil_r.
    rewrite IH by (intros; apply Hmono; lia).
    unfold iloc. rewrite take_take_drop. f_equal.
    specialize (Hmono c ltac:(lia)). lia.
Qed.

Lemma length_iloc {A} (l : list A) a b :
  (b <= length l)%nat -> length (iloc l a b) = (b - a)%nat.
Proof. intros Hb. unfold iloc. rewrite length_take, length_drop. lia. Qed.

Lemma split_roughly_equal_bounds n c (i : nat) :
  (1 <= c -> i <= c ->
   i * (n / c) + min i (n mod c) <= n /\
   (i = c -> i * (n / c) + min i (n mod c) = n))%nat.
Proof.
  intros Hc Hi.
  pose proof (Nat.div_mod_eq n c) as E.
  pose proof (Nat.mod_upper_bound n c ltac:(lia)) as B.
  split; [|intros ->; nia].
  assert (i * (n / c) <= c * (n / c))%nat by nia. lia.
Qed.

(* what split returns on a non-empty table, with the bounds on the number
   of chunks spelled out for the proofs about save *)
Lemma split_spec {A} (df : list A) (m : nat) :
  df <> [] -> (1 <= m)%nat ->
  exists chunks,
    split df m = Ok chunks /\
    length chunks = ceil_div (length df) m /\
    (length df <= length chunks * m)%nat /\
    ((length chunks - 1) * m < length df)%nat /\
    concat chunks = df /\
    Forall (fun c => (1 <= length c <= m)%nat) chunks /\
    (forall c1 c2, c1 ∈ chunks -> c2 ∈ chunks -> (length c1 <= length c2 + 1)%nat).
Proof.
  intros Hne Hm.
  set (n := length df). set (c := ceil_div n m).
  assert (Hn : (1 <= n)%nat) by (subst n; destruct df; simpl; [congruence|lia]).
  destruct (ceil_div_spec n m Hm) as [Hup Hlow]. specialize (Hlow Hn). fold c in Hup, Hlow.
  assert (Hc : (1 <= c)%nat) by (destruct c; simpl in *; lia).
  assert (Hcn : (c <= n)%nat) by nia.
  pose proof (Nat.div_mod_eq n c) as E.
  pose proof (Nat.mod_upper_bound n c ltac:(lia)) as B.
  set (k := (n / c)%nat) in *. set (r := (n mod c)%nat) in *.
  assert (Hk : (1 <= k)%nat) by (destruct k; nia).
  assert (Hkm : (k + (if (r =? 0)%nat then 0 else 1) <= m)%nat).
  { destruct (Nat.eqb_spec r 0); nia. }
  set (f := fun i => (i * k + min i r)%nat).
  exists (map (fun i => iloc df (f i) (f (S i))) (seq 0 c)).
  assert (Hsz : forall i, (i < c)%nat ->
            length (iloc df (f i) (f (S i))) = (k + (min (S i) r - min i r))%nat).
  { intros i Hi. rewrite length_iloc.
    - unfold f. lia.
    - destruct (split_roughly_equal_bounds n c (S i) Hc ltac:(lia)) as [Hb _].
      fold k r in Hb. unfold f. fold n. lia. }
  split; [|split; [|split; [|split; [|split; [|split]]]]].
  - unfold split, split_roughly_equal. fold n c k r.
    destruct (Nat.eqb_spec m 0); [lia|]. destruct (Nat.eqb_spec c 0); [lia|].
    f_equal. apply map_ext. intros i. unfold f. do 2 f_equal; lia.
  - by rewrite length_map, length_seq.
  - rewrite length_map, length_seq. exact Hup.
  - rewrite length_map, length_seq. exact Hlow.
  - rewrite iloc_chain.
    + destruct (split_roughly_equal_bounds n c c Hc ltac:(lia)) as [_ Hb].
      specialize (Hb eq_refl). fold k r in Hb. unfold f. rewrite Hb. apply firstn_all.
    + unfold f. lia.
    + intros i _. unfold f. lia.
  - apply Forall_forall. intros ch Hch. apply list_elem_of_fmap in Hch as (i & -> & Hi).
    apply elem_of_seq in Hi. rewrite Hsz by lia.
    destruct (Nat.eqb_spec r 0); lia.
  - intros c1 c2 H1 H2.
    apply list_elem_of_fmap in H1 as (i & -> & Hi). apply list_elem_of_fmap in H2 as (j & -> & Hj).
    apply elem_of_seq in Hi, Hj. rewrite !Hsz by lia. lia.
Qed.

(** C8: a non-empty table of n rows is split, for a maximum row count
    m >= 1, into ceil(n/m) contiguous chunks that concatenate to the table
    in order; no chunk is empty, none has more than m rows, and the sizes
    of any two chunks differ by at most one. *)
Theorem split_chunks {A} (df : list A) (m : nat) :
  df <> [] -> (1 <= m)%nat ->
  exists chunks,
    split df m = Ok chunks /\
    length chunks = ceil_div (length df) m /\
    concat chunks = df /\
    Forall (fun c => (1 <= length c <= m)%nat) chunks /\
    (forall c1 c2, c1 ∈ chunks -> c2 ∈ chunks -> (length c1 <= length c2 + 1)%nat).
Proof.
  intros Hne Hm.
  destruct (split_spec df m Hne Hm) as (chunks & Hs & Hlen & _ & _ & Hc & Hall & Hdiff).
  exists chunks. exact (conj Hs (conj Hlen (conj Hc (conj Hall Hdiff)))).
Qed.

Lemma split_chunks_witness :
  exists chunks,
    split [1; 2; 3; 4; 5; 6; 7]%nat 3 = Ok chunks /\
    length chunks = ceil_div (length [1; 2; 3; 4; 5; 6; 7]%nat) 3 /\
    concat chunks = [1; 2; 3; 4; 5; 6; 7]%nat /\
    Forall (fun c => (1 <= length c <= 3)%nat) chunks /\
    (forall c1 c2, c1 ∈ chunks -> c2 ∈ chunks -> (length c1 <= length c2 + 1)%nat).
Proof.
  apply split_chunks; [discriminate|lia].
Defined.


Section EngineFacts.
Context {num : Type} `{Number num}.
Variable is_valid_message_id : option string -> bool.
Variable MAX : nat.

#[local] Abbreviation RDP := (RewardedDecisionPartition num).
#[local] Abbreviation process := (process is_valid_message_id MAX).
#[local] Abbreviation load := (load is_valid_message_id).

Lemma bind_Ok {A B} (m : M num A) (k : A -> M num B) w a w' :
  m w = (Ok a, w') -> (m ≫= k) w = k a w'.
Proof. intros Hm. unfold mbind, M_bind. by rewrite Hm. Qed.

Lemma bind_Raise {A B} (m : M num A) (k : A -> M num B) w e w' :
  m w = (Raise e, w') -> (m ≫= k) w = (Raise e, w').
Proof. intros Hm. unfold mbind, M_bind. by rewrite Hm. Qed.

Lemma load_invalid (self : RDP) key s3_df w :
  s3_key self = Some key ->
  objects w !! Live key = Some (Parquet s3_df) ->
  forallb is_valid_message_id (map decision_id (rows s3_df)) = false ->
  load self w = (Raise ValueError, quarantine key s3_df w).
Proof.
  intros Hkey Hobj Hinv. unfold load, partition.load. rewrite Hkey.
  erewrite bind_Ok; cycle 1.
  { unfold except_IOError. erewrite bind_Ok; [|unfold read_parquet; by rewrite Hobj]. done. }
  cbv beta iota.
  assert (forallb id (map is_valid_message_id (map decision_id (rows s3_df))) = false) as ->.
  { rewrite <- Hinv. clear. induction (rows s3_df); simpl; [done|]. by rewrite IHl. }
  simpl. done.
Qed.

Lemma process_invalid (self : RDP) key s3_df w :
  s3_key self = Some key ->
  objects w !! Live key = Some (Parquet s3_df) ->
  forallb is_valid_message_id (map decision_id (rows s3_df)) = false ->
  process self w = (Raise ValueError, quarantine key s3_df w).
Proof.
  intros Hkey Hobj Hinv. unfold process, partition.process.
  apply bind_Raise. by apply load_invalid.
Qed.

(** *** A store change that other partitions do not observe *)

Section Frame.
Variable key : PartitionKey.
Variable s3_df : DataFrame num.

#[local] Abbreviation fresh_above := (fresh_above key).
#[local] Abbreviation unaffected := (unaffected key s3_df).
#[local] Abbreviation detached := (detached key).

Lemma unaffected_weaken {A} (Q Q' : A -> Prop) (m : M num A) :
  (forall a, Q a -> Q' a) -> unaffected Q m -> unaffected Q' m.
Proof.
  intros HQ Hm w Hw. destruct (Hm w Hw) as (E & F & P). eauto.
Qed.

Lemma unaffected_ret {A} (a : A) : unaffected (fun x => x = a) (mret a).
Proof. intros w Hw. unfold mret, M_ret. simpl. split; [done|]. split; [done|]. by intros ? [= <-]. Qed.

Lemma unaffected_raise {A} (Q : A -> Prop) e : unaffected Q (raise e).
Proof. intros w Hw. unfold raise. simpl. done. Qed.

Lemma unaffected_lift {A} (r : result A) : unaffected (fun x => r = Ok x) (lift r).
Proof. intros w Hw. unfold lift. simpl. split; [done|]. split; [done|]. by intros ? ->. Qed.

Lemma unaffected_assert b : unaffected (fun _ => b = true) (assert b).
Proof.
  destruct b; simpl.
  - eapply unaffected_weaken; [|apply unaffected_ret]. done.
  - apply unaffected_raise.
Qed.

Lemma unaffected_bind {A B} (Q : A -> Prop) (R : B -> Prop)
    (m : M num A) (k : A -> M num B) :
  unaffected Q m -> (forall a, Q a -> unaffected R (k a)) -> unaffected R (m ≫= k).
Proof.
  intros Hm Hk w Hw. destruct (Hm w Hw) as (E & F & P).
  unfold mbind, M_bind. rewrite E. destruct (m w) as [[a|e] w1] eqn:Em; simpl in *.
  - apply (Hk a (P a eq_refl) w1 F).
  - done.
Qed.

Lemma quarantine_lookup k' w :
  k' <> Live key -> k' <> Unrecoverable key ->
  objects (quarantine key s3_df w) !! k' = objects w !! k'.
Proof.
  intros H1 H2. simpl. rewrite lookup_delete_ne by done. by rewrite lookup_insert_ne.
Qed.

Lemma unaffected_read k' :
  k' <> Live key -> k' <> Unrecoverable key -> unaffected (fun _ => True) (read_parquet k').
Proof.
  intros H1 H2 w Hw. unfold read_parquet. rewrite quarantine_lookup by done.
  destruct (objects w !! k') as [[d|]|]; simpl; done.
Qed.

Lemma unaffected_to_parquet k' d :
  k' <> Live key -> k' <> Unrecoverable key -> unaffected (fun _ => True) (to_parquet k' d).
Proof.
  intros H1 H2 w Hw. unfold to_parquet, quarantine. simpl. split; [|done].
  f_equal. f_equal.
  rewrite <- delete_insert_ne by done. f_equal. by apply insert_insert_ne.
Qed.

Lemma unaffected_delete k' :
  k' <> Unrecoverable key -> unaffected (fun _ => True) (delete_object k').
Proof.
  intros H2 w Hw. unfold delete_object, quarantine. simpl. split; [|done].
  f_equal. f_equal.
  rewrite delete_delete. f_equal. by rewrite delete_insert_ne.
Qed.

Lemma unaffected_uuid4 :
  unaffected (fun u => (key_uuid key < u)%nat) (@uuid4 num).
Proof.
  intros w Hw. unfold uuid4, quarantine. simpl. split; [done|].
  unfold fresh_above in *. simpl. split; [lia|]. by intros ? [= <-].
Qed.

Lemma unaffected_except {A} (Q : A -> Prop) (body handler : M num A) :
  unaffected Q body -> unaffected Q handler -> unaffected Q (except_IOError body handler).
Proof.
  intros Hb Hh w Hw. destruct (Hb w Hw) as (E & F & P).
  unfold except_IOError. rewrite E. destruct (body w) as [[a|e] w1] eqn:Eb; simpl in *.
  - done.
  - destruct e; try done; apply (Hh w1 F).
Qed.


Lemma unaffected_parquet_s3_key model min_id max_id count_ :
  unaffected (fun k => (key_uuid key < key_uuid k)%nat)
             (parquet_s3_key (num:=num) model min_id max_id count_).
Proof.
  unfold parquet_s3_key.
  eapply unaffected_bind; [apply unaffected_lift|]. intros min_ts _.
  eapply unaffected_bind; [apply unaffected_lift|]. intros prefix _.
  eapply unaffected_bind; [apply unaffected_uuid4|]. intros u Hu.
  eapply unaffected_weaken; [|apply unaffected_ret]. by intros k ->.
Qed.

Lemma unaffected_save_chunk (self : RDP) b chunk :
  unaffected (fun _ => True) (save_chunk self b chunk).
Proof.
  unfold save_chunk.
  eapply unaffected_bind; [apply unaffected_lift|]. intros first_id _.
  eapply unaffected_bind; [apply unaffected_lift|]. intros last_id _.
  eapply unaffected_bind; [apply unaffected_parquet_s3_key|]. intros k Hk.
  apply unaffected_to_parquet; [|done]. intros [= ->]. lia.
Qed.

Lemma unaffected_save_chunks (self : RDP) b chunks :
  unaffected (fun _ => True) (save_chunks self b chunks).
Proof.
  induction chunks as [|chunk chunks IH]; simpl.
  - eapply unaffected_weaken; [|apply unaffected_ret]. done.
  - eapply unaffected_bind; [apply unaffected_save_chunk|]. intros _ _. apply IH.
Qed.

Lemma unaffected_get_df (self : RDP) : unaffected (fun _ => True) (get_df self).
Proof.
  unfold get_df. destruct (df self).
  - eapply unaffected_weaken; [|apply unaffected_ret]. done.
  - apply unaffected_raise.
Qed.

Lemma unaffected_load (self : RDP) : detached self -> unaffected detached (load self).
Proof.
  intros Hd. unfold load, partition.load. unfold detached in Hd.
  destruct (s3_key self) as [k2|] eqn:Ek.
  - assert (Live k2 <> Live key) as Hne by congruence.
    eapply unaffected_bind.
    { apply unaffected_except.
      - eapply unaffected_bind; [by apply unaffected_read|]. intros d _.
        eapply unaffected_weaken; [|apply unaffected_ret]. intros; exact I.
      - eapply unaffected_weaken; [|apply unaffected_ret]. intros; exact I. }
    intros [s3_df'|] _.
    + destruct (negb _).
      * eapply unaffected_bind; [apply unaffected_to_parquet; [done|congruence]|].
        intros _ _. eapply unaffected_bind; [by apply unaffected_delete|].
        intros _ _. apply unaffected_raise.
      * eapply unaffected_bind; [apply unaffected_get_df|]. intros d _.
        eapply unaffected_weaken; [|apply unaffected_ret].
        intros a ->. unfold detached. simpl. by rewrite Ek.
    + eapply unaffected_weaken; [|apply unaffected_ret]. by intros a ->.
  - eapply unaffected_weaken; [|apply unaffected_ret].
    intros a ->. unfold detached. by rewrite Ek.
Qed.

Lemma unaffected_sort (self : RDP) : detached self -> unaffected detached (sort self).
Proof.
  intros Hd. unfold sort.
  eapply unaffected_bind; [apply unaffected_get_df|]. intros d _.
  eapply unaffected_bind; [apply unaffected_lift|]. intros a _.
  eapply unaffected_bind; [apply unaffected_lift|]. intros b _.
  eapply unaffected_weaken; [|apply unaffected_ret]. by intros r ->.
Qed.

Lemma unaffected_merge (self : RDP) : detached self -> unaffected detached (merge self).
Proof.
  intros Hd. unfold merge.
  eapply unaffected_bind; [apply unaffected_assert|]. intros _ _.
  eapply unaffected_bind; [apply unaffected_get_df|]. intros d _.
  eapply unaffected_weaken; [|apply unaffected_ret]. by intros r ->.
Qed.

Lemma unaffected_save (self : RDP) :
  detached self -> unaffected detached (save MAX self).
Proof.
  intros Hd. unfold save.
  eapply unaffected_bind; [apply unaffected_assert|]. intros _ _.
  eapply unaffected_bind; [apply unaffected_get_df|]. intros d _.
  eapply unaffected_bind; [apply unaffected_lift|]. intros chunks _.
  eapply unaffected_bind; [apply unaffected_save_chunks|]. intros _ _.
  eapply unaffected_weaken; [|apply unaffected_ret]. by intros r ->.
Qed.

Lemma unaffected_cleanup (self : RDP) :
  detached self -> unaffected (fun _ => True) (cleanup self).
Proof.
  intros Hd. unfold cleanup.
  eapply unaffected_bind with (Q := fun _ => True).
  - destruct (s3_key self) as [k2|] eqn:Ek.
    + by apply unaffected_delete.
    + eapply unaffected_weaken; [|apply unaffected_ret]. done.
  - intros _ _. eapply unaffected_weaken; [|apply unaffected_ret]. done.
Qed.

Lemma unaffected_process (self : RDP) :
  detached self -> unaffected (fun _ => True) (process self).
Proof.
  intros Hd. unfold process, partition.process.
  eapply unaffected_bind; [by apply unaffected_load|]. intros s1 H1.
  eapply unaffected_bind with (Q := detached).
  { unfold filter_valid. eapply unaffected_weaken; [|apply unaffected_ret]. by intros a ->. }
  intros s2 H2.
  eapply unaffected_bind; [by apply unaffected_sort|]. intros s3 H3.
  eapply unaffected_bind; [by apply unaffected_merge|]. intros s4 H4.
  eapply unaffected_bind; [by apply unaffected_save|]. intros s5 H5.
  by apply unaffected_cleanup.
Qed.

End Frame.


End EngineFacts.

(** ** KSUID timestamps follow the order of the ids *)

Lemma base62_digit_range c d : base62_digit c = Some d -> 0 <= d < 62.
Proof.
  unfold base62_digit. intros Hd.
  repeat match type of Hd with
         | (if ?b then _ else _) = _ => destruct b eqn:?
         end; inversion Hd; subst; lia.
Qed.

Lemma base62_digit_mono c1 c2 d1 d2 :
  base62_digit c1 = Some d1 -> base62_digit c2 = Some d2 ->
  (N_of_ascii c1 < N_of_ascii c2)%N -> d1 < d2.
Proof.
  unfold base62_digit. intros H1 H2 Hlt.
  repeat match type of H1 with
         | (if ?b then _ else _) = _ => destruct b eqn:?
         end; inversion H1; subst; clear H1;
  repeat match type of H2 with
         | (if ?b then _ else _) = _ => destruct b eqn:?
         end; inversion H2; subst; clear H2; lia.
Qed.

Lemma base62_decode_spec s : forall acc n,
  base62_decode s acc = Ok n ->
  exists v, base62_decode s 0 = Ok v /\
            n = acc * 62 ^ Z.of_nat (String.length s) + v /\
            0 <= v < 62 ^ Z.of_nat (String.length s).
Proof.
  induction s as [|c s IH]; intros acc n Hn; simpl in Hn |- *.
  - inversion Hn; subst. exists 0. split; [done|]. change (62 ^ Z.of_nat 0) with 1. lia.
  - destruct (base62_digit c) as [d|] eqn:Hd; [|discriminate].
    pose proof (base62_digit_range c d Hd) as Hr.
    destruct (IH _ _ Hn) as (v & Hv & -> & Hb).
    assert (exists v', base62_decode s (62 * 0 + d) = Ok v') as (v' & Hv').
    { clear -Hv. revert Hv. generalize 0 at 1. generalize (62 * 0 + d). clear.
      induction s as [|c s IH]; intros a b; simpl; [eauto|].
      destruct (base62_digit c); [|discriminate]. apply IH. }
    destruct (IH _ _ Hv') as (v2 & Hv2 & -> & Hb2).
    assert (v2 = v) as -> by congruence.
    exists ((62 * 0 + d) * 62 ^ Z.of_nat (String.length s) + v). split; [done|].
    rewrite Nat2Z.inj_succ, Z.pow_succ_r by lia. nia.
Qed.

Lemma base62_decode_mono (a : string) : forall (b : string) na nb,
  String.length a = String.length b ->
  base62_decode a 0 = Ok na -> base62_decode b 0 = Ok nb ->
  str_le a b -> na <= nb.
Proof.
  unfold str_le.
  induction a as [|c1 a IH]; intros [|c2 b] na nb Hlen Ha Hb Hle; simpl in *; try done.
  - inversion Ha; inversion Hb; subst. lia.
  - destruct (base62_digit c1) as [d1|] eqn:Hd1; [|discriminate].
    destruct (base62_digit c2) as [d2|] eqn:Hd2; [|discriminate].
    destruct (base62_decode_spec _ _ _ Ha) as (va & Hva & -> & Bva).
    destruct (base62_decode_spec _ _ _ Hb) as (vb & Hvb & -> & Bvb).
    assert (String.length a = String.length b) as Hlen' by lia. rewrite <- Hlen' in *.
    pose proof (base62_digit_range _ _ Hd1). pose proof (base62_digit_range _ _ Hd2).
    unfold Ascii_as_OT.compare in Hle.
    destruct (N_as_OT.compare_spec (N_of_ascii c1) (N_of_ascii c2)) as [Heq|Hlt|Hgt].
    + assert (c1 = c2) as ->.
      { rewrite <- (ascii_N_embedding c1), <- (ascii_N_embedding c2). by rewrite Heq. }
      assert (d1 = d2) as -> by congruence.
      pose proof (IH b va vb Hlen' Hva Hvb Hle). lia.
    + pose proof (base62_digit_mono _ _ _ _ Hd1 Hd2 Hlt). nia.
    + done.
Qed.

Lemma is_ksuid_timestamp id :
  is_ksuid id = true -> ksuid_timestamp id = Ok (ts_of id).
Proof.
  unfold is_ksuid, ts_of, ksuid_timestamp. destruct id as [s|]; [|done].
  intros Hk. apply andb_prop in Hk as [_ Hk]. simpl.
  destruct (base62_decode s 0) as [n|]; [|done]. simpl.
  apply Z.ltb_lt in Hk. destruct (Z.leb_spec (2 ^ 160) n); [lia|done].
Qed.

Lemma ts_of_mono (a b : string) :
  is_ksuid (Some a) = true -> is_ksuid (Some b) = true -> str_le a b ->
  ts_of (Some a) <= ts_of (Some b).
Proof.
  intros Ha Hb Hle.
  pose proof (is_ksuid_timestamp _ Ha) as Ta. pose proof (is_ksuid_timestamp _ Hb) as Tb.
  unfold is_ksuid in Ha, Hb. apply andb_prop in Ha as [La Ha], Hb as [Lb Hb].
  apply Nat.eqb_eq in La, Lb.
  unfold ts_of, ksuid_timestamp. simpl.
  destruct (base62_decode a 0) as [na|] eqn:Ea; [|done].
  destruct (base62_decode b 0) as [nb|] eqn:Eb; [|done]. simpl.
  apply Z.ltb_lt in Ha, Hb.
  destruct (Z.leb_spec (2 ^ 160) na); [lia|]. destruct (Z.leb_spec (2 ^ 160) nb); [lia|].
  assert (na <= nb) by (eapply (base62_decode_mono a b); [lia|done..]).
  assert (na / 2 ^ 128 <= nb / 2 ^ 128) by (apply Z.div_le_mono; lia). lia.
Qed.

Section ProcessFacts.
Context {num : Type} `{Number num}.
Variable is_valid_message_id : option string -> bool.
Variable MAX : nat.

#[local] Abbreviation RDP := (RewardedDecisionPartition num).
#[local] Abbreviation process := (process is_valid_message_id MAX).
#[local] Abbreviation load := (load is_valid_message_id).

(** *** The phases on a partition that loads nothing *)

Ltac step_ok tac := erewrite bind_Ok; cycle 1; [solve [tac]|].

Lemma load_read_failure (self : RDP) old w :
  s3_key self = Some old ->
  objects w !! Live old = None \/ objects w !! Live old = Some Unreadable ->
  load self w = (Ok (set_s3_key self None), w).
Proof.
  intros Hkey Hobj. unfold load, partition.load. rewrite Hkey.
  erewrite bind_Ok; cycle 1.
  { unfold except_IOError. erewrite bind_Raise; cycle 1.
    { unfold read_parquet. destruct Hobj as [-> | ->]; reflexivity. }
    reflexivity. }
  reflexivity.
Qed.

Lemma load_no_key (self : RDP) w : s3_key self = None -> load self w = (Ok self, w).
Proof. intros Hkey. unfold load, partition.load. by rewrite Hkey. Qed.

Lemma sort_ok (self : RDP) d w :
  df self = Some d -> rows d <> [] ->
  sort self w = (Ok (sorted_partition self d), w).
Proof.
  intros Hdf Hne. unfold sort, get_df. rewrite Hdf.
  assert (rows (sort_values d) <> []) as Hne'.
  { simpl. intros Hnil. apply Hne. apply Permutation_nil_r.
    rewrite <- Hnil. by rewrite stable_sort_Permutation. }
  unfold sorted_partition.
  unfold mbind, M_bind, mret, M_ret, lift, iat_first, iat_last. cbv zeta.
  destruct (map decision_id (rows (sort_values d))) as [|x l] eqn:E.
  { destruct (rows (sort_values d)); [done|discriminate]. }
  assert (is_Some (last (x :: l))) as [y Hy].
  { rewrite last_is_Some. done. }
  simpl head. rewrite Hy. done.
Qed.

Lemma merge_ok (self : RDP) d w :
  sorted self = true -> df self = Some d ->
  merge self w = (Ok (set_df self (Some (merge_frame d))), w).
Proof. intros Hs Hdf. unfold merge, get_df. rewrite Hs, Hdf. done. Qed.

Lemma save_chunk_ok (self : RDP) b chunk w :
  good_chunk chunk ->
  save_chunk self b chunk w
  = (Ok tt, write_chunks (model_name self) b [chunk] w).
Proof.
  intros [Hne Hids]. unfold save_chunk, parquet_s3_key, parquet_s3_key_prefix.
  destruct chunk as [|r0 chunk]; [done|].
  assert (is_Some (last (map decision_id (r0 :: chunk)))) as [y Hy].
  { rewrite last_is_Some. done. }
  assert (exists r, r ∈ r0 :: chunk /\ decision_id r = y) as (ry & Hry & <-).
  { assert (y ∈ map decision_id (r0 :: chunk)) as Hin.
    { apply list_elem_of_lookup. exists (length (map decision_id chunk)).
      rewrite last_lookup in Hy. simpl in *. done. }
    apply list_elem_of_fmap in Hin as (r & -> & Hr). eauto. }
  unfold mbind, M_bind, mret, M_ret, lift, iat_first, iat_last, uuid4, to_parquet.
  rewrite Hy.
  change (head (map decision_id (r0 :: chunk))) with (Some (decision_id r0)).
  cbv beta iota.
  rewrite (is_ksuid_timestamp _ (Hids r0 ltac:(left))).
  rewrite (is_ksuid_timestamp _ (Hids ry Hry)).
  unfold write_chunks, chunk_key. rewrite Hy.
  change (head (map decision_id (r0 :: chunk))) with (Some (decision_id r0)).
  reflexivity.
Qed.

Lemma save_chunks_ok (self : RDP) b chunks : forall w,
  Forall good_chunk chunks ->
  save_chunks self b chunks w = (Ok tt, write_chunks (model_name self) b chunks w).
Proof.
  induction chunks as [|chunk chunks IH]; intros w Hgood; simpl; [done|].
  inversion Hgood as [|? ? Hg Hgs]; subst.
  erewrite bind_Ok; [|by apply save_chunk_ok]. exact (IH _ Hgs).
Qed.

Lemma save_ok (self : RDP) d chunks w :
  sorted self = true -> df self = Some d ->
  split (rows d) MAX = Ok chunks -> Forall good_chunk chunks ->
  save MAX self w
  = (Ok self, write_chunks (model_name self) (has_rewards_column d) chunks w).
Proof.
  intros Hs Hdf Hsplit Hgood. unfold save.
  step_ok ltac:(rewrite Hs; reflexivity).
  step_ok ltac:(unfold get_df; rewrite Hdf; reflexivity).
  step_ok ltac:(unfold lift; rewrite Hsplit; reflexivity).
  step_ok ltac:(by apply save_chunks_ok).
  reflexivity.
Qed.

Lemma cleanup_no_key (self : RDP) w :
  s3_key self = None -> cleanup self w = (Ok (set_df self None), w).
Proof. intros Hkey. unfold cleanup. by rewrite Hkey. Qed.


(** *** What save leaves in the store *)

Lemma write_chunks_next_uuid model b (chunks : list (list (Row num))) : forall w,
  next_uuid (write_chunks model b chunks w) = (next_uuid w + length chunks)%nat.
Proof.
  induction chunks as [|c cs IH]; intros w; simpl; [lia|]. rewrite IH. simpl. lia.
Qed.

(* keys named before the save keep their objects *)
Lemma write_chunks_old model b (chunks : list (list (Row num))) : forall w k,
  (forall pk, k = Live pk -> (key_uuid pk < next_uuid w)%nat) ->
  objects (write_chunks model b chunks w) !! k = objects w !! k.
Proof.
  induction chunks as [|c cs IH]; intros w k Hold; simpl; [done|].
  rewrite IH.
  - simpl. apply lookup_insert_ne. intros <-.
    specialize (Hold _ eq_refl). simpl in Hold. lia.
  - intros pk ->. simpl. specialize (Hold _ eq_refl). lia.
Qed.

(* each chunk sits under its key *)
Lemma write_chunks_new model b (chunks : list (list (Row num))) : forall w i c,
  chunks !! i = Some c ->
  objects (write_chunks model b chunks w) !! Live (chunk_key model (next_uuid w + i) c)
  = Some (Parquet {| has_rewards_column := b; rows := c |}).
Proof.
  induction chunks as [|c0 cs IH]; intros w i c Hi; [done|].
  destruct i as [|i]; simpl in *.
  - inversion Hi; subst. rewrite write_chunks_old.
    + simpl. rewrite Nat.add_0_r. apply lookup_insert_eq.
    + intros pk [= <-]. simpl. lia.
  - specialize (IH {| objects := <[Live (chunk_key model (next_uuid w) c0) :=
                          Parquet {| has_rewards_column := b; rows := c0 |}]> (objects w);
                      next_uuid := S (next_uuid w) |} i c Hi).
    simpl in IH. replace (next_uuid w + S i)%nat with (S (next_uuid w + i)) by lia. exact IH.
Qed.

(* nothing else is in the store *)
Lemma write_chunks_dom model b (chunks : list (list (Row num))) : forall w k,
  is_Some (objects (write_chunks model b chunks w) !! k) ->
  is_Some (objects w !! k) \/
  exists i c, chunks !! i = Some c /\ k = Live (chunk_key model (next_uuid w + i) c).
Proof.
  induction chunks as [|c0 cs IH]; intros w k Hk; simpl in *; [by left|].
  apply IH in Hk as [Hk|(i & c & Hi & ->)]; simpl in *.
  - destruct (decide (k = Live (chunk_key model (next_uuid w) c0))) as [->|Hne].
    + right. exists 0%nat, c0. split; [done|]. by rewrite Nat.add_0_r.
    + left. by rewrite lookup_insert_ne in Hk.
  - right. exists (S i), c. split; [done|]. do 2 f_equal. lia.
Qed.

Lemma write_chunks_fresh model b (chunks : list (list (Row num))) w :
  store_fresh w -> store_fresh (write_chunks model b chunks w).
Proof.
  intros Hf k Hk. rewrite write_chunks_next_uuid.
  apply write_chunks_dom in Hk as [Hk|(i & c & Hi & [= ->])].
  - specialize (Hf k Hk). lia.
  - simpl. apply lookup_lt_Some in Hi. lia.
Qed.


(** *** Rows of a merged frame *)

Lemma merge_frame_row_id (d : DataFrame num) r :
  r ∈ rows (merge_frame d) ->
  exists k r0, decision_id r = Some k /\ r0 ∈ rows d /\ decision_id r0 = Some k.
Proof.
  simpl. intros Hr. apply list_elem_of_fmap in Hr as (k & -> & Hk).
  pose proof Hk as Hk'. apply group_keys_elem_of in Hk' as (r0 & Hr0 & Hid).
  exists k, r0. split; [by apply aggregate_decision_id|done].
Qed.

Lemma merge_frame_has_row (d : DataFrame num) r0 k :
  r0 ∈ rows d -> decision_id r0 = Some k ->
  exists r, r ∈ rows (merge_frame d) /\ decision_id r = Some k.
Proof.
  intros Hr0 Hid.
  assert (k ∈ group_keys (rows d)) as Hk by (apply group_keys_elem_of; eauto).
  exists (aggregate (has_rewards_column d) (group_rows k (rows d))). split.
  - simpl. apply list_elem_of_fmap. eauto.
  - by apply aggregate_decision_id.
Qed.

#[export] Instance id_le_trans : Transitive id_le.
Proof.
  intros [a|] [b|] [c|]; simpl; try done. apply str_le_trans.
Qed.

#[export] Instance id_le_refl : Reflexive id_le.
Proof. intros [a|]; simpl; [apply str_le_refl|done]. Qed.

#[export] Instance row_le_refl : Reflexive (@row_le num).
Proof. intros r. unfold row_le. reflexivity. Qed.

Lemma merge_frame_sorted (d : DataFrame num) :
  StronglySorted row_le (rows (merge_frame d)).
Proof.
  simpl.
  assert (StronglySorted str_le (group_keys (rows d))) as Hs.
  { apply Sorted_StronglySorted; [apply _|apply group_keys_sorted]. }
  assert (forall k, k ∈ group_keys (rows d) ->
            decision_id (aggregate (has_rewards_column d) (group_rows k (rows d))) = Some k)
    as Hid by (intros; by apply aggregate_decision_id).
  induction Hs as [|k ks Hs IH Hall]; simpl; [constructor|].
  constructor.
  - apply IH. intros k' Hk'. apply Hid. by right.
  - apply Forall_forall. intros r Hr. apply list_elem_of_fmap in Hr as (k' & -> & Hk').
    unfold row_le. rewrite (Hid k ltac:(left)), (Hid k' ltac:(by right)). simpl.
    rewrite Forall_forall in Hall. by apply Hall.
Qed.

Lemma StronglySorted_concat {A} (R : relation A) (chunks : list (list A)) c :
  StronglySorted R (concat chunks) -> c ∈ chunks -> StronglySorted R c.
Proof.
  induction chunks as [|c0 cs IH]; simpl; intros Hs Hc.
  - by apply elem_of_nil in Hc.
  - apply StronglySorted_app in Hs as (_ & Hs0 & Hs).
    apply elem_of_cons in Hc as [->|Hc]; [done|by apply IH].
Qed.

Lemma StronglySorted_head_last {A} (R : relation A) `{!Reflexive R} (l : list A) x :
  StronglySorted R l -> x ∈ l ->
  exists a b, head l = Some a /\ last l = Some b /\ R a x /\ R x b.
Proof.
  intros Hs. revert x. induction Hs as [|a l Hs IH Hall]; intros x Hx.
  - by apply elem_of_nil in Hx.
  - rewrite Forall_forall in Hall. destruct l as [|a' l'].
    + apply list_elem_of_singleton in Hx as ->. exists a, a. repeat split; reflexivity.
    + assert (is_Some (last (a' :: l'))) as [b Hb] by (by rewrite last_is_Some).
      exists a, b. split; [done|]. split; [by rewrite last_cons, Hb|].
      apply elem_of_cons in Hx as [->|Hx].
      * split; [reflexivity|]. apply Hall. rewrite last_lookup in Hb.
        eapply list_elem_of_lookup_2. exact Hb.
      * split; [by apply Hall|].
        destruct (IH x Hx) as (a2 & b2 & _ & Hb2 & _ & Hxb). congruence.
Qed.


Lemma overlaps_of_common_point (k1 k2 : PartitionKey) t :
  key_min_ts k1 <= t <= key_max_ts k1 ->
  key_min_ts k2 <= t <= key_max_ts k2 ->
  overlaps (interval_of k1) (interval_of k2) = true.
Proof.
  intros H1 H2. unfold interval_of, closed.
  destruct (Z.leb_spec (key_min_ts k1) (key_max_ts k1)); [|lia].
  destruct (Z.leb_spec (key_min_ts k2) (key_max_ts k2)); [|lia].
  simpl. apply Z.leb_le. lia.
Qed.

(* a chunk of a sorted frame of k-ids spans the timestamps of its rows *)
Lemma chunk_key_spans model u (c : list (Row num)) r :
  StronglySorted row_le c ->
  (forall r', r' ∈ c -> is_ksuid (decision_id r') = true) ->
  r ∈ c ->
  key_min_ts (chunk_key model u c) <= ts_of (decision_id r)
  <= key_max_ts (chunk_key model u c).
Proof.
  intros Hs Hids Hr.
  destruct (StronglySorted_head_last row_le c r Hs Hr) as (a & b & Ha & Hb & Har & Hrb).
  assert (a ∈ c) as Hain by (by apply head_Some_elem_of).
  assert (b ∈ c) as Hbin.
  { rewrite last_lookup in Hb. eapply list_elem_of_lookup_2. exact Hb. }
  unfold chunk_key. simpl.
  assert (head (map decision_id c) = Some (decision_id a)) as ->.
  { destruct c; simpl in *; congruence. }
  assert (last (map decision_id c) = Some (decision_id b)) as ->.
  { change (map decision_id c) with (decision_id <$> c). by rewrite fmap_last, Hb. }
  simpl.
  pose proof (Hids a Hain) as Ka. pose proof (Hids b Hbin) as Kb.
  pose proof (Hids r Hr) as Kr.
  unfold row_le in Har, Hrb.
  destruct (decision_id a) as [ia|]; [|done].
  destruct (decision_id b) as [ib|]; [|done].
  destruct (decision_id r) as [ir|]; [|done].
  simpl in Har, Hrb. split; by apply ts_of_mono.
Qed.

(** C6 (amended): when the read of the partition attached to an RDP fails
    with an I/O error, process does not fail: it drops the key attachment
    and goes on with the incoming records only.  The unreadable object is
    not deleted by any phase, every object of the store is kept, and the
    merged incoming records are written as sibling partitions under new
    keys.  A sibling overlaps the old key when the timestamp of an incoming
    decision_id lies within the interval of the old key. *)
Theorem read_failure_writes_sibling (self : RDP) old d w :
  s3_key self = Some old -> df self = Some d ->
  objects w !! Live old = None \/ objects w !! Live old = Some Unreadable ->
  rows d <> [] -> (forall r, r ∈ rows d -> is_ksuid (decision_id r) = true) ->
  (1 <= MAX)%nat -> store_fresh w -> fresh_above old w ->
  exists self' chunks,
    let model := model_name self in
    let w' := write_chunks model (has_rewards_column d) chunks w in
    process self w = (Ok self', w') /\
    s3_key self' = None /\
    split (rows (merge_frame (sort_values d))) MAX = Ok chunks /\
    concat chunks = rows (merge_frame (sort_values d)) /\
    objects w' !! Live old = objects w !! Live old /\
    (forall k o, objects w !! k = Some o -> objects w' !! k = Some o) /\
    (forall i c, chunks !! i = Some c ->
       objects w !! Live (chunk_key model (next_uuid w + i) c) = None /\
       objects w' !! Live (chunk_key model (next_uuid w + i) c)
       = Some (Parquet {| has_rewards_column := has_rewards_column d; rows := c |})) /\
    (forall k, is_Some (objects w' !! k) ->
       is_Some (objects w !! k) \/
       exists i c, chunks !! i = Some c /\ k = Live (chunk_key model (next_uuid w + i) c)) /\
    (forall r, r ∈ rows d ->
       key_min_ts old <= ts_of (decision_id r) <= key_max_ts old ->
       exists i c, chunks !! i = Some c /\
         overlaps (interval_of (chunk_key model (next_uuid w + i) c)) (interval_of old)
         = true).
Proof.
  intros Hkey Hdf Hobj Hne Hids HMAX Hfresh Hold.
  set (dm := merge_frame (sort_values d)).
  assert (rows (sort_values d) ≡ₚ rows d) as Hperm by apply stable_sort_Permutation.
  assert (forall r, r ∈ rows dm -> is_ksuid (decision_id r) = true) as Hmids.
  { intros r Hr. apply merge_frame_row_id in Hr as (k & r0 & -> & Hr0 & <-).
    apply Hids. by rewrite <- Hperm. }
  assert (rows dm <> []) as Hmne.
  { assert (exists r0, r0 ∈ rows d) as (r0 & Hr0).
    { destruct (rows d) as [|r0 l]; [done|]. exists r0. left. }
    pose proof (Hids r0 Hr0) as Hk. destruct (decision_id r0) as [k|] eqn:Ek; [|done].
    destruct (merge_frame_has_row (sort_values d) r0 k) as (r & Hr & _);
      [by rewrite Hperm|done|].
    intros Hnil. fold dm in Hr. rewrite Hnil in Hr. by apply elem_of_nil in Hr. }
  destruct (split_spec (rows dm) MAX Hmne HMAX)
    as (chunks & Hsplit & _ & _ & _ & Hconcat & Hsizes & _).
  assert (forall c r, c ∈ chunks -> r ∈ c -> r ∈ rows dm) as Hsub.
  { intros c r Hc Hr. rewrite <- Hconcat. apply list_elem_of_In, in_concat.
    exists c. split; by apply list_elem_of_In. }
  assert (Forall good_chunk chunks) as Hgood.
  { apply Forall_forall. intros c Hc. split.
    - rewrite Forall_forall in Hsizes. specialize (Hsizes c Hc). destruct c; simpl in *; [lia|done].
    - intros r Hr. apply Hmids. by apply (Hsub c). }
  set (s1 := set_s3_key self None).
  set (s2 := sorted_partition s1 d).
  set (s3 := set_df s2 (Some dm)).
  exists (set_df s3 None), chunks. cbv zeta.
  split; [|split; [done|split; [done|split; [done|split; [|split; [|split; [|split]]]]]]].
  - unfold process, partition.process.
    step_ok ltac:(by apply (load_read_failure self old)).
    step_ok ltac:(reflexivity).
    step_ok ltac:(by apply sort_ok).
    step_ok ltac:(by apply merge_ok).
    step_ok ltac:(by apply (save_ok s3 dm chunks)).
    by apply cleanup_no_key.
  - apply write_chunks_old. by intros pk [= <-].
  - intros k o Hk. rewrite write_chunks_old; [done|].
    intros pk ->. apply Hfresh. eauto.
  - intros i c Hi. split; [|by apply write_chunks_new].
    destruct (objects w !! Live (chunk_key (model_name self) (next_uuid w + i) c)) eqn:E;
      [|done].
    assert (key_uuid (chunk_key (model_name self) (next_uuid w + i) c) < next_uuid w)%nat
      by (apply Hfresh; eauto).
    simpl in *. lia.
  - apply write_chunks_dom.
  - intros r Hr Hts.
    pose proof (Hids r Hr) as Hk. destruct (decision_id r) as [k|] eqn:Ek; [|done].
    destruct (merge_frame_has_row (sort_values d) r k) as (rm & Hrm & Hidm);
      [by rewrite Hperm|done|].
    fold dm in Hrm. rewrite <- Hconcat in Hrm.
    apply list_elem_of_In, in_concat in Hrm as (c & Hc & Hrc).
    apply list_elem_of_In in Hc, Hrc.
    pose proof Hc as Hci. apply list_elem_of_lookup in Hci as (i & Hi).
    exists i, c. split; [done|].
    apply (overlaps_of_common_point _ _ (ts_of (Some k))); [|done].
    rewrite <- Hidm. apply chunk_key_spans; [| |done].
    + apply (StronglySorted_concat row_le chunks); [|done].
      rewrite Hconcat. apply merge_frame_sorted.
    + intros r' Hr'. apply Hmids. by apply (Hsub c).
Qed.

End ProcessFacts.
(** *** The engine on example stores *)

(* The reward is planned onto old_key, whose file cannot be read; the
   sibling written for it covers second 1400000100 only and does not
   overlap the interval 1400000150 to 1400000200 of old_key. *)
Lemma read_failure_sibling_need_not_overlap :
  let sibling := examples.key 1400000100 1400000100 1 1 in
  exists self',
    partition.process is_ksuid 10 examples.incoming_reward examples.unreadable_store
    = (Ok self',
       {| objects :=
            <[Live sibling :=
                Parquet (examples.frame
                           [{| decision_id := Some examples.id_A; timestamp := None;
                               variant := None; givens := None; count := None;
                               runners_up := None; sample := None;
                               rewards := Some [("0ujtsYcgvSTl8PAuAdqWYSMnLOv"%string, 1)];
                               reward := Some 1 |}])]>
              (objects examples.unreadable_store);
          next_uuid := 2 |}) /\
    overlaps (interval_of sibling) (interval_of examples.old_key) = false.
Proof.
  eexists. split; [vm_compute; reflexivity|reflexivity].
Qed.

Lemma read_failure_writes_sibling_witness :
  exists self' w',
    partition.process is_ksuid 10 examples.incoming_reward examples.unreadable_store
    = (Ok self', w') /\
    s3_key self' = None /\
    objects w' !! Live examples.old_key = Some Unreadable.
Proof.
  destruct (read_failure_writes_sibling is_ksuid 10 examples.incoming_reward
              examples.old_key
              (examples.frame
                 [examples.example_row examples.id_A None
                    (Some [("0ujtsYcgvSTl8PAuAdqWYSMnLOv"%string, 1)])])
              examples.unreadable_store)
    as (self' & chunks & Hp & Hk & _ & _ & Hold & _).
  - reflexivity.
  - reflexivity.
  - right. reflexivity.
  - discriminate.
  - intros r Hr. apply list_elem_of_singleton in Hr as ->. reflexivity.
  - lia.
  - intros k [o Hk]. simpl in Hk.
    apply lookup_singleton_Some in Hk as [[= <-] _]. simpl. lia.
  - unfold fresh_above. simpl. lia.
  - eexists _, _. split; [exact Hp|]. split; [exact Hk|]. rewrite Hold. reflexivity.
Defined.



(** ** Overlap detection *)

Section StableSortSorted.
Context {A : Type} (le : A -> A -> Prop) `{!RelDecision le, !Total le, !Transitive le}.

Lemma insert_sorted_StronglySorted x (l : list A) :
  StronglySorted le l -> StronglySorted le (insert_sorted le x l).
Proof.
  induction 1 as [|y l Hs IH Hall]; simpl.
  - repeat constructor.
  - destruct (decide (le x y)) as [Hxy|Hxy].
    + constructor; [by constructor|]. constructor; [done|].
      eapply Forall_impl; [exact Hall|]. intros z Hz. by etransitivity.
    + constructor; [done|].
      assert (le y x) as Hyx by (destruct (total le x y); done).
      rewrite insert_sorted_Permutation. by constructor.
Qed.

Lemma stable_sort_StronglySorted (l : list A) : StronglySorted le (stable_sort le l).
Proof.
  induction l as [|x l IH]; simpl; [constructor|]. by apply insert_sorted_StronglySorted.
Qed.

End StableSortSorted.

Lemma lower_le_refl a : lower_le a a.
Proof. destruct a; simpl; [lia|done]. Qed.

#[export] Instance lower_le_total : Total lower_le.
Proof. intros [a|] [b|]; simpl; try lia; tauto. Qed.

#[export] Instance lower_le_trans : Transitive lower_le.
Proof. intros [a|] [b|] [c|]; simpl; try lia; tauto. Qed.

#[export] Instance dict_le_total : Total dict_le.
Proof. intros a b. unfold dict_le. apply total, _. Qed.

#[export] Instance dict_le_trans : Transitive dict_le.
Proof. intros a b c. unfold dict_le. apply transitivity. Qed.

Lemma overlaps_sym a b : overlaps a b = overlaps b a.
Proof.
  destruct a as [|l1 u1], b as [|l2 u2]; simpl; try done.
  by rewrite (Z.max_comm l1 l2), (Z.min_comm u1 u2).
Qed.

Lemma sub_interval_refl a : sub_interval a a.
Proof. destruct a; simpl; [done|lia]. Qed.

Lemma sub_interval_union a b c :
  overlaps b c = true -> sub_interval a b -> sub_interval a (union b c).
Proof.
  destruct a as [|l u], b as [|l1 u1], c as [|l2 u2]; simpl; try done. lia.
Qed.

Lemma sub_interval_closed lo hi l u :
  l <= lo -> hi <= u -> sub_interval (closed lo hi) (Closed l u).
Proof. intros. unfold closed. destruct (lo <=? hi); simpl; [lia|done]. Qed.

(* intervals within intervals that do not overlap do not overlap *)
Lemma overlaps_sub a b a' b' :
  sub_interval a a' -> sub_interval b b' -> overlaps a' b' = false -> overlaps a b = false.
Proof.
  destruct a as [|l u], b as [|l2 u2], a' as [|l' u'], b' as [|l2' u2']; simpl; try done.
  intros [? ?] [? ?] Ho. apply Z.leb_gt in Ho. apply Z.leb_gt. lia.
Qed.

Lemma proper_closed lo hi : proper (closed lo hi).
Proof. unfold closed. destruct (Z.leb_spec lo hi); simpl; [done|done]. Qed.

Lemma proper_union a b : proper a -> proper b -> proper (union a b).
Proof. destruct a, b; simpl; try done. lia. Qed.

Lemma before_push e top next :
  proper e -> proper top -> proper next ->
  before e top -> lower_le (lower top) (lower next) -> overlaps top next = false ->
  before e next.
Proof.
  unfold before.
  destruct e as [|l u], top as [|l1 u1], next as [|l2 u2]; simpl; try done; try tauto.
  intros ? ? ? [Ho Hl] Hl' Ho'. apply Z.leb_gt in Ho, Ho'. split; [apply Z.leb_gt|]; lia.
Qed.

Lemma before_union e top next :
  proper e -> proper top -> proper next ->
  before e top -> lower_le (lower top) (lower next) -> overlaps top next = true ->
  before e (union top next).
Proof.
  unfold before.
  destruct e as [|l u], top as [|l1 u1], next as [|l2 u2]; simpl; try done; try tauto.
  intros ? ? ? [Ho Hl] Hl' Ho'. apply Z.leb_gt in Ho. apply Z.leb_le in Ho'.
  split; [apply Z.leb_gt|]; lia.
Qed.

Lemma lower_union top next :
  lower_le (lower top) (lower next) -> overlaps top next = true ->
  lower (union top next) = lower top.
Proof.
  destruct top as [|l1 u1], next as [|l2 u2]; simpl; try done. intros. f_equal. lia.
Qed.

Lemma overlap_stack_step st next rest :
  overlap_stack st ->
  Forall (fun e => dict_le e next) st ->
  proper (domain next) ->
  values next <> [] ->
  (forall k, k ∈ values next -> sub_interval (interval_of k) (domain next)) ->
  Forall (dict_le next) rest ->
  let st' := overlaps_step st next in
  overlap_stack st' /\
  Forall (fun e => Forall (dict_le e) rest) st' /\
  concat (map values (reverse st')) ≡ₚ concat (map values (reverse st)) ++ values next.
Proof.
  intros Hst Hle Hpn Hne Hsub Hrest.
  destruct Hst as [|top st Hst Hbef Hpt Hvne Hvsub]; simpl.
  - split; [|split].
    + constructor; [constructor|constructor|done|done|done].
    + by repeat constructor.
    + cbn. by rewrite app_nil_r.
  - inversion Hle as [|? ? Htop Hle']; subst. unfold dict_le in Htop.
    destruct (overlaps (domain top) (domain next)) eqn:Eo.
    + split; [|split].
      * assert (Forall (fun e => proper (domain e)) st) as Hps.
        { clear -Hst. induction Hst; constructor; done. }
        constructor; [done| | | |].
        -- apply Forall_forall. intros e He. simpl.
           rewrite Forall_forall in Hbef, Hps.
           apply before_union; [by apply Hps|done|done|by apply Hbef|done|done].
        -- simpl. by apply proper_union.
        -- simpl. intros Hnil. apply app_eq_nil in Hnil as [? _]. done.
        -- simpl. intros k Hk. apply elem_of_app in Hk as [Hk|Hk].
           ++ apply sub_interval_union; [done|by apply Hvsub].
           ++ rewrite overlaps_sym in Eo.
              assert (union (domain top) (domain next) = union (domain next) (domain top))
                as ->.
              { destruct (domain top), (domain next); simpl; try done.
                by rewrite Z.min_comm, Z.max_comm. }
              apply sub_interval_union; [done|by apply Hsub].
      * constructor.
        -- eapply Forall_impl; [exact Hrest|]. intros x Hx. unfold dict_le in *. simpl.
           rewrite lower_union by done. by etransitivity.
        -- apply Forall_forall. intros e He. eapply Forall_impl; [exact Hrest|].
           intros x Hx. rewrite Forall_forall in Hle'. specialize (Hle' e He).
           by etransitivity.
      * rewrite !reverse_cons, !map_app, !concat_app. simpl.
        rewrite !app_nil_r. by rewrite app_assoc.
    + split; [|split].
      * assert (Forall (fun e => proper (domain e)) st) as Hps.
        { clear -Hst. induction Hst; constructor; done. }
        constructor; [by constructor| |done|done|done].
        constructor; [split; [done|done]|].
        apply Forall_forall. intros e He.
        rewrite Forall_forall in Hbef, Hps.
        apply (before_push _ (domain top)); [by apply Hps|done|done|by apply Hbef|done|done].
      * constructor; [done|]. constructor.
        -- eapply Forall_impl; [exact Hrest|]. intros x Hx. by etransitivity.
        -- apply Forall_forall. intros e He. eapply Forall_impl; [exact Hrest|].
           intros x Hx. rewrite Forall_forall in Hle'. specialize (Hle' e He).
           by etransitivity.
      * rewrite !reverse_cons, !map_app, !concat_app. simpl.
        rewrite !app_nil_r. by rewrite <- !app_assoc.
Qed.

Lemma overlap_stack_fold rest : forall st,
  overlap_stack st ->
  StronglySorted dict_le rest ->
  Forall (fun e => Forall (dict_le e) rest) st ->
  Forall good_overlap rest ->
  overlap_stack (fold_left overlaps_step rest st) /\
  concat (map values (reverse (fold_left overlaps_step rest st)))
  ≡ₚ concat (map values (reverse st)) ++ concat (map values rest).
Proof.
  induction rest as [|x rest IH]; intros st Hst Hs Hle Hgood; simpl.
  - split; [done|]. by rewrite app_nil_r.
  - apply StronglySorted_cons in Hs as [Hx Hs].
    inversion Hgood as [|? ? (Hp & Hne & Hsub) Hgood']; subst.
    destruct (overlap_stack_step st x rest Hst) as (Hst' & Hle' & Hperm); try done.
    { eapply Forall_impl; [exact Hle|]. intros e He. by inversion He. }
    destruct (IH _ Hst' Hs Hle' Hgood') as (Hfin & Hperm').
    split; [done|]. rewrite Hperm', Hperm. by rewrite <- app_assoc.
Qed.

Lemma concat_Permutation {A} (l1 l2 : list (list A)) :
  l1 ≡ₚ l2 -> concat l1 ≡ₚ concat l2.
Proof.
  induction 1 as [|x l l' Hp IH|x y l|l l' l'' H1 IH1 H2 IH2]; simpl.
  - done.
  - by rewrite IH.
  - rewrite !app_assoc. f_equiv. apply Permutation_app_comm.
  - by etransitivity.
Qed.

Lemma concat_map_single (keys : list PartitionKey) :
  concat (map values (map single_overlap keys)) = keys.
Proof. induction keys as [|k keys IH]; simpl; [done|]. by rewrite IH. Qed.

Lemma good_overlap_single k : good_overlap (single_overlap k).
Proof.
  split; [apply proper_closed|]. split; [done|].
  intros k' Hk'. apply list_elem_of_singleton in Hk' as ->. apply sub_interval_refl.
Qed.

Lemma get_all_overlaps_unfold keys :
  get_all_overlaps keys
  = match stable_sort dict_le (map single_overlap keys) with
    | [] => Raise IndexError
    | first :: rest => Ok (reverse (fold_left overlaps_step rest [first]))
    end.
Proof. reflexivity. Qed.

(* the overlaps found for a list of keys: every key is in exactly one of
   them, within its domain, and the domains lie one before the other *)
Lemma get_all_overlaps_spec keys :
  keys <> [] ->
  exists comps,
    get_all_overlaps keys = Ok comps /\
    overlap_stack (reverse comps) /\
    concat (map values comps) ≡ₚ keys.
Proof.
  intros Hne. rewrite get_all_overlaps_unfold.
  pose proof (stable_sort_Permutation dict_le (map single_overlap keys)) as Hperm.
  pose proof (stable_sort_StronglySorted dict_le (map single_overlap keys)) as Hs.
  assert (Forall good_overlap (stable_sort dict_le (map single_overlap keys))) as Hgood.
  { rewrite Hperm. apply Forall_forall. intros x Hx.
    apply list_elem_of_fmap in Hx as (k & -> & _). apply good_overlap_single. }
  destruct (stable_sort dict_le (map single_overlap keys)) as [|first rest] eqn:E.
  { apply Permutation_nil_l in Hperm. destruct keys; [done|discriminate]. }
  apply StronglySorted_cons in Hs as [Hfirst Hs].
  inversion Hgood as [|? ? (Hp & Hvne & Hsub) Hgood']; subst.
  destruct (overlap_stack_fold rest [first]) as (Hst & Hc); try done.
  { constructor; [constructor|constructor|done|done|done]. }
  { by repeat constructor. }
  eexists. split; [done|]. split.
  - by rewrite reverse_involutive.
  - rewrite Hc. cbn. rewrite app_nil_r.
    change (values first ++ concat (map values rest))
      with (concat (map values (first :: rest))).
    rewrite <- concat_map_single. apply concat_Permutation.
    apply fmap_Permutation. exact Hperm.
Qed.

Lemma overlap_stack_pairwise st :
  overlap_stack st ->
  forall i j e1 e2, st !! i = Some e1 -> st !! j = Some e2 -> i <> j ->
    overlaps (domain e1) (domain e2) = false.
Proof.
  induction 1 as [|top st Hst IH Hbef Hp Hne Hsub]; intros i j e1 e2 H1 H2 Hij.
  - done.
  - rewrite Forall_forall in Hbef. destruct i as [|i], j as [|j]; simpl in *.
    + done.
    + inversion H1; subst. rewrite overlaps_sym.
      apply (Hbef e2). by eapply list_elem_of_lookup_2.
    + inversion H2; subst. apply (Hbef e1). by eapply list_elem_of_lookup_2.
    + apply (IH i j); [done|done|lia].
Qed.

Lemma overlap_stack_good st : overlap_stack st -> Forall good_overlap st.
Proof. induction 1; constructor; [by repeat split|done]. Qed.

Lemma get_all_overlaps_pairwise keys comps :
  get_all_overlaps keys = Ok comps ->
  Forall good_overlap comps /\
  concat (map values comps) ≡ₚ keys /\
  forall i j c1 c2, comps !! i = Some c1 -> comps !! j = Some c2 -> i <> j ->
    overlaps (domain c1) (domain c2) = false.
Proof.
  intros Hg. destruct (decide (keys = [])) as [->|Hne]; [done|].
  destruct (get_all_overlaps_spec keys Hne) as (comps' & Hg' & Hst & Hperm).
  assert (comps' = comps) as -> by congruence.
  split; [|split; [done|]].
  - apply overlap_stack_good in Hst. rewrite Forall_forall in Hst |- *.
    intros c Hc. apply Hst. by apply elem_of_reverse.
  - intros i j c1 c2 H1 H2 Hij.
    pose proof (lookup_lt_Some _ _ _ H1) as L1. pose proof (lookup_lt_Some _ _ _ H2) as L2.
    apply (overlap_stack_pairwise _ Hst (length comps - S i) (length comps - S j))%nat.
    + rewrite reverse_lookup by lia. replace (length comps - S (length comps - S i))%nat
        with i by lia. done.
    + rewrite reverse_lookup by lia. replace (length comps - S (length comps - S j))%nat
        with j by lia. done.
    + lia.
Qed.

(* with keys that do not overlap, nothing is combined *)
Lemma no_overlap_fold rest : forall st,
  Forall (fun e => exists k, e = single_overlap k) st ->
  Forall (fun e => exists k, e = single_overlap k) rest ->
  (forall e x, e ∈ st -> x ∈ rest -> overlaps (domain e) (domain x) = false) ->
  StronglySorted (fun a b => overlaps (domain a) (domain b) = false) rest ->
  Forall (fun e => exists k, e = single_overlap k) (fold_left overlaps_step rest st).
Proof.
  induction rest as [|x rest IH]; intros st Hst Hrest Hno Hs; simpl; [done|].
  inversion Hrest as [|? ? Hx Hrest']; subst.
  apply StronglySorted_cons in Hs as [Hxr Hs]. rewrite Forall_forall in Hxr.
  apply IH; [|done| |done].
  - destruct st as [|top st]; simpl; [by constructor|].
    rewrite (Hno top x) by (left). by constructor.
  - intros e y He Hy. destruct st as [|top st]; simpl in He.
    + apply list_elem_of_singleton in He as ->. by apply Hxr.
    + rewrite (Hno top x) in He by (left).
      apply elem_of_cons in He as [->|He]; [by apply Hxr|].
      apply Hno; [done|by right].
Qed.

#[export] Instance single_overlap_inj : Inj (=) (=) single_overlap.
Proof. intros k1 k2 Heq. by inversion Heq. Qed.

Lemma get_all_overlaps_singles keys :
  NoDup keys ->
  (forall k1 k2, k1 ∈ keys -> k2 ∈ keys -> k1 <> k2 ->
     overlaps (interval_of k1) (interval_of k2) = false) ->
  keys <> [] ->
  exists comps,
    get_all_overlaps keys = Ok comps /\
    Forall (fun c => exists k, values c = [k]) comps.
Proof.
  intros Hnd Hno Hne. rewrite get_all_overlaps_unfold.
  pose proof (stable_sort_Permutation dict_le (map single_overlap keys)) as Hperm.
  assert (NoDup (stable_sort dict_le (map single_overlap keys))) as Hnd'.
  { rewrite Hperm. by apply (NoDup_fmap_2 single_overlap). }
  assert (Forall (fun e => exists k, k ∈ keys /\ e = single_overlap k)
                 (stable_sort dict_le (map single_overlap keys))) as Hall.
  { rewrite Hperm. apply Forall_forall. intros x Hx.
    apply list_elem_of_fmap in Hx as (k & -> & Hk). eauto. }
  destruct (stable_sort dict_le (map single_overlap keys)) as [|first rest] eqn:E.
  { apply Permutation_nil_l in Hperm. destruct keys; [done|discriminate]. }
  assert (forall a b, a ∈ first :: rest -> b ∈ first :: rest -> a <> b ->
            overlaps (domain a) (domain b) = false) as Hpair.
  { rewrite Forall_forall in Hall. intros a b Ha Hb Hab.
    destruct (Hall a Ha) as (ka & Hka & ->). destruct (Hall b Hb) as (kb & Hkb & ->).
    apply (Hno ka kb); [done|done|congruence]. }
  assert (StronglySorted (fun a b => overlaps (domain a) (domain b) = false) (first :: rest))
    as Hs.
  { clear -Hnd' Hpair. induction (first :: rest) as [|a l IH]; [constructor|].
    apply NoDup_cons in Hnd' as [Ha Hnd']. constructor.
    - apply IH; [done|]. intros x y Hx Hy. apply Hpair; by right.
    - apply Forall_forall. intros b Hb. apply Hpair; [left|by right|]. by intros ->. }
  apply StronglySorted_cons in Hs as [Hfirst Hs]. rewrite Forall_forall in Hfirst.
  inversion Hall as [|? ? (k1 & _ & Hk1) Hall']; subst.
  eexists. split; [done|].
  assert (Forall (fun e => exists k, e = single_overlap k)
                 (fold_left overlaps_step rest [single_overlap k1])) as Hfin.
  { apply no_overlap_fold; [| | |done].
    - repeat constructor. eauto.
    - eapply Forall_impl; [exact Hall'|]. intros e (k & _ & ->). eauto.
    - intros e x He Hx. apply list_elem_of_singleton in He as ->. by apply Hfirst. }
  apply Forall_forall. intros c Hc. rewrite elem_of_reverse in Hc.
  rewrite Forall_forall in Hfin. destruct (Hfin c Hc) as (k & ->). by exists k.
Qed.

(** ** The listing of the partition keys *)

Lemma lex_compare_refl a : lex_compare a a = Eq.
Proof. induction a as [|x a IH]; simpl; [done|]. by rewrite Z.compare_refl, IH. Qed.

Lemma lex_compare_eq a : forall b, lex_compare a b = Eq -> a = b.
Proof.
  induction a as [|x a IH]; intros [|y b]; simpl; try done.
  destruct (Z.compare_spec x y); try done. intros Hab. subst. f_equal. by apply IH.
Qed.

Lemma lex_compare_antisym a : forall b, lex_compare b a = CompOpp (lex_compare a b).
Proof.
  induction a as [|x a IH]; intros [|y b]; simpl; try done.
  rewrite (Z.compare_antisym x y). destruct (x ?= y); simpl; done.
Qed.

Lemma lex_compare_trans a : forall b c,
  lex_compare a b = Lt -> lex_compare b c = Lt -> lex_compare a c = Lt.
Proof.
  induction a as [|x a IH]; intros [|y b] [|z c]; simpl; try done.
  destruct (Z.compare_spec x y), (Z.compare_spec y z); try done; subst.
  - rewrite Z.compare_refl. apply IH.
  - intros _ _. by apply Z.compare_lt_iff in H0 as ->.
  - intros _ _. by apply Z.compare_lt_iff in H as ->.
  - intros _ _. assert (x < z) as Hxz by lia. by apply Z.compare_lt_iff in Hxz as ->.
Qed.

#[export] Instance key_le_total : Total key_le.
Proof.
  intros a b. unfold key_le. rewrite (lex_compare_antisym (key_fields a) (key_fields b)).
  destruct (lex_compare (key_fields a) (key_fields b)); simpl; [by left|by left|by right].
Qed.

#[export] Instance key_le_trans : Transitive key_le.
Proof.
  intros a b c. unfold key_le. intros Hab Hbc.
  destruct (lex_compare (key_fields a) (key_fields b)) eqn:Eab; [| |done].
  - apply lex_compare_eq in Eab. by rewrite Eab.
  - destruct (lex_compare (key_fields b) (key_fields c)) eqn:Ebc; [| |done].
    + apply lex_compare_eq in Ebc. rewrite <- Ebc. by rewrite Eab.
    + by rewrite (lex_compare_trans _ _ _ Eab Ebc).
Qed.

Lemma key_fields_inj k1 k2 :
  key_model k1 = key_model k2 -> key_fields k1 = key_fields k2 -> k1 = k2.
Proof.
  destruct k1, k2. unfold key_fields. simpl. intros -> [= -> -> Hc Hu].
  apply Nat2Z.inj in Hc, Hu. by subst.
Qed.

Lemma key_le_lt k1 k2 :
  key_model k1 = key_model k2 -> k1 <> k2 -> key_le k1 k2 -> key_lt k1 k2.
Proof.
  unfold key_le, key_lt. intros Hm Hne Hle.
  destruct (lex_compare (key_fields k1) (key_fields k2)) eqn:E; [|done|done].
  exfalso. apply Hne. apply key_fields_inj; [done|]. by apply lex_compare_eq.
Qed.

Lemma NoDup_omap {A B} (f : A -> option B) (l : list A) :
  (forall x y z, f x = Some z -> f y = Some z -> x = y) ->
  NoDup l -> NoDup (omap f l).
Proof.
  intros Hinj. induction 1 as [|x l Hx Hnd IH]; simpl; [constructor|].
  destruct (f x) as [z|] eqn:E; [|done]. constructor; [|done].
  intros Hz. apply list_elem_of_omap in Hz as (y & Hy & Hfy).
  assert (x = y) by (by eapply Hinj). by subst.
Qed.

Section Listing.
Context {num : Type}.
Implicit Types (w : World num).

Lemma live_keys_elem_of w k : k ∈ live_keys w <-> is_Some (objects w !! Live k).
Proof.
  unfold live_keys. rewrite list_elem_of_omap. split.
  - intros (x & Hx & Hk). destruct x as [k'|k']; [|done]. inversion Hk; subst.
    apply elem_of_elements in Hx. by apply elem_of_dom.
  - intros Hk. exists (Live k). split; [|done].
    apply elem_of_elements. by apply elem_of_dom.
Qed.

Lemma live_keys_NoDup w : NoDup (live_keys w).
Proof.
  unfold live_keys. apply NoDup_omap; [|apply NoDup_elements].
  intros [x|x] [y|y] z; try done. congruence.
Qed.

Lemma listed_elem_of start model w k :
  k ∈ listed start model w <->
  is_Some (objects w !! Live k) /\ key_model k = model /\ prefix_max_ts start <= key_max_ts k.
Proof.
  unfold listed. rewrite stable_sort_Permutation, list_elem_of_filter, live_keys_elem_of.
  tauto.
Qed.

Lemma listed_NoDup start model w : NoDup (listed start model w).
Proof.
  unfold listed. rewrite stable_sort_Permutation. apply NoDup_filter, live_keys_NoDup.
Qed.

Lemma listed_sorted start model w : StronglySorted key_le (listed start model w).
Proof. apply stable_sort_StronglySorted; apply _. Qed.

(* the assert of repair on a listing of two keys or more *)
Lemma listed_assert start model w :
  (1 < length (listed start model w))%nat ->
  exists first last_,
    head (reverse (listed start model w)) = Some first /\
    last (reverse (listed start model w)) = Some last_ /\
    key_lt last_ first.
Proof.
  intros Hlen.
  pose proof (listed_NoDup start model w) as Hnd.
  pose proof (listed_sorted start model w) as Hs.
  assert (forall k, k ∈ listed start model w -> key_model k = model) as Hm.
  { intros k Hk. by apply listed_elem_of in Hk as (_ & ? & _). }
  destruct (listed start model w) as [|a l]; [simpl in Hlen; lia|].
  destruct l as [|b l]; [simpl in Hlen; lia|].
  assert (is_Some (last (b :: l))) as [z Hz] by (by rewrite last_is_Some).
  assert (z ∈ b :: l) as Hzin.
  { rewrite last_lookup in Hz. by eapply list_elem_of_lookup_2. }
  exists z, a. split; [|split].
  - rewrite head_reverse. by rewrite last_cons, Hz.
  - by rewrite last_reverse.
  - apply StronglySorted_cons in Hs as [Hall _]. rewrite Forall_forall in Hall.
    apply NoDup_cons in Hnd as [Ha _].
    apply key_le_lt; [|by intros ->|by apply Hall].
    rewrite (Hm a ltac:(left)). symmetry. apply Hm. by right.
Qed.

End Listing.

(** ** Overlap repair *)

Section RepairFacts.
Context {num : Type} `{Number num}.
Variable is_valid_message_id : option string -> bool.
Variable MAX : nat.

#[local] Abbreviation RDP := (RewardedDecisionPartition num).
#[local] Abbreviation process := (process is_valid_message_id MAX).
#[local] Abbreviation repair_overlap := (repair_overlap is_valid_message_id MAX).
#[local] Abbreviation repair_overlaps := (repair_overlaps is_valid_message_id MAX).
#[local] Abbreviation repair_listed := (repair_listed is_valid_message_id MAX).
#[local] Abbreviation repair_overlapping_keys :=
  (repair_overlapping_keys is_valid_message_id MAX).

Lemma bind_inv {A B} (m : M num A) (k : A -> M num B) w b w' :
  (m ≫= k) w = (Ok b, w') -> exists a w1, m w = (Ok a, w1) /\ k a w1 = (Ok b, w').
Proof.
  unfold mbind, M_bind. destruct (m w) as [[a|e] w1]; [eauto|discriminate].
Qed.

Lemma mapM_read_inv (ks : list PartitionKey) : forall w dfs w',
  mapM (fun s3_key => read_parquet (num:=num) (Live s3_key)) ks w = (Ok dfs, w') ->
  w' = w /\ Forall2 (fun k d => objects w !! Live k = Some (Parquet d)) ks dfs.
Proof.
  induction ks as [|k ks IH]; intros w dfs w' Hm; simpl in Hm.
  - inversion Hm; subst. split; [done|constructor].
  - apply bind_inv in Hm as (d & w1 & Hr & Hm).
    apply bind_inv in Hm as (ds & w2 & Hrest & Hm).
    inversion Hm; subst.
    unfold read_parquet in Hr.
    destruct (objects w !! Live k) as [[d'|]|] eqn:E; inversion Hr; subst.
    destruct (IH _ _ _ Hrest) as [-> Hall]. split; [done|]. by constructor.
Qed.

Lemma mapM_delete_inv (ks : list PartitionKey) : forall (w : World num) l w',
  mapM (fun s3_key => delete_object (num:=num) (Live s3_key)) ks w = (Ok l, w') ->
  next_uuid w' = next_uuid w /\
  (forall k, k ∈ ks -> objects w' !! Live k = None) /\
  (forall k', (forall k, k ∈ ks -> k' <> Live k) -> objects w' !! k' = objects w !! k') /\
  (forall k', is_Some (objects w' !! k') -> is_Some (objects w !! k')).
Proof.
  induction ks as [|k ks IH]; intros w l w' Hm; simpl in Hm.
  - inversion Hm; subst. split; [done|]. split; [|done].
    intros k Hk. by apply elem_of_nil in Hk.
  - apply bind_inv in Hm as (u & w1 & Hd & Hm).
    apply bind_inv in Hm as (us & w2 & Hrest & Hm).
    inversion Hm; subst. unfold delete_object in Hd. inversion Hd; subst.
    destruct (IH _ _ _ Hrest) as (Hu & Hdel & Hkeep & Hsome). simpl in *.
    split; [done|]. split; [|split].
    + intros k0 Hk0. destruct (decide (k0 ∈ ks)) as [Hin|Hnin]; [by apply Hdel|].
      apply elem_of_cons in Hk0 as [->|?]; [|done].
      rewrite Hkeep; [apply lookup_delete_eq|]. intros k1 Hk1 [= ->]. done.
    + intros k' Hk'. rewrite Hkeep.
      * apply lookup_delete_ne. intros <-. by apply (Hk' k); [left|].
      * intros k1 Hk1. apply Hk'. by right.
    + intros k' Hk'. apply Hsome in Hk'.
      destruct (decide (k' = Live k)) as [->|Hne].
      * rewrite lookup_delete_eq in Hk'. by destruct Hk'.
      * by rewrite lookup_delete_ne in Hk'.
Qed.

Lemma save_chunk_inv (self : RDP) b chunk w u w' :
  save_chunk self b chunk w = (Ok u, w') ->
  w' = write_chunks (model_name self) b [chunk] w.
Proof.
  unfold save_chunk, parquet_s3_key, parquet_s3_key_prefix. intros Hs.
  unfold mbind, M_bind, result_bind, lift, iat_first, iat_last, uuid4, to_parquet,
    mret, M_ret in Hs.
  destruct (head (map decision_id chunk)) as [x|] eqn:Eh; [|discriminate].
  destruct (last (map decision_id chunk)) as [y|] eqn:El; [|discriminate].
  destruct (ksuid_timestamp x) as [tx|] eqn:Ex; [|discriminate].
  destruct (ksuid_timestamp y) as [ty|] eqn:Ey; [|discriminate].
  simpl in Hs. inversion Hs; subst.
  unfold write_chunks, chunk_key, ts_of. rewrite Eh, El. simpl. rewrite Ex, Ey.
  reflexivity.
Qed.

Lemma length_remove_dups {A} `{EqDecision A} (l : list A) :
  (length (remove_dups l) <= length l)%nat.
Proof.
  induction l as [|x l IH]; simpl; [lia|].
  destruct (decide_rel elem_of x l); simpl; lia.
Qed.

Lemma length_dropna {A} (l : list (option A)) : (length (dropna l) <= length l)%nat.
Proof. induction l as [|[x|] l IH]; simpl; lia. Qed.

Lemma merge_frame_length (d : DataFrame num) :
  (length (rows (merge_frame d)) <= length (rows d))%nat.
Proof.
  simpl. rewrite length_map. unfold group_keys.
  rewrite (Permutation_length (merge_sort_Permutation _ _)).
  etransitivity; [apply length_remove_dups|].
  etransitivity; [apply length_dropna|]. by rewrite length_map.
Qed.

Lemma split_empty {A} m : split (@nil A) m = Raise ZeroDivisionError.
Proof.
  unfold split, split_roughly_equal, ceil_div. simpl.
  destruct (Nat.eqb_spec m 0); [done|].
  rewrite Nat.Div0.div_0_l, Nat.Div0.mod_0_l. done.
Qed.

(* a table that fits in one file is saved whole *)
Lemma split_single {A} (l : list A) m chunks :
  split l m = Ok chunks -> (length l <= m)%nat -> l <> [] /\ chunks = [l].
Proof.
  intros Hs Hlen. destruct l as [|x l]; [by rewrite split_empty in Hs|].
  split; [done|].
  assert (1 <= m)%nat as Hm by (simpl in Hlen; lia).
  destruct (split_spec (x :: l) m) as (chunks' & Hs' & _ & Hup & Hlow & Hc & _);
    [done|done|].
  assert (chunks' = chunks) as -> by congruence.
  destruct chunks as [|c [|c' chunks]]; simpl in *.
  - lia.
  - by rewrite app_nil_r in Hc; subst.
  - nia.
Qed.

Lemma process_new_single model d0 w p w1 :
  process (RDP_init model d0 None) w = (Ok p, w1) ->
  (length (rows d0) <= MAX)%nat ->
  rows (merge_frame (sort_values d0)) <> [] /\
  w1 = write_chunks model (has_rewards_column d0) [rows (merge_frame (sort_values d0))] w.
Proof.
  intros Hp Hlen. unfold process, partition.process in Hp.
  apply bind_inv in Hp as (s1 & w2 & Hload & Hp).
  rewrite load_no_key in Hload by done. inversion Hload; subst.
  apply bind_inv in Hp as (s2 & w3 & Hf & Hp). inversion Hf; subst.
  apply bind_inv in Hp as (s3 & w4 & Hsort & Hp).
  destruct (decide (rows d0 = [])) as [Hnil|Hne].
  { exfalso. unfold sort, get_df in Hsort. simpl in Hsort.
    unfold mbind, M_bind, mret, M_ret, lift, iat_first in Hsort. simpl in Hsort.
    rewrite Hnil in Hsort. simpl in Hsort. discriminate. }
  rewrite (sort_ok _ d0) in Hsort by done. inversion Hsort; subst.
  apply bind_inv in Hp as (s4 & w5 & Hmerge & Hp).
  rewrite (merge_ok _ (sort_values d0)) in Hmerge by done. inversion Hmerge; subst.
  apply bind_inv in Hp as (s5 & w6 & Hsave & Hp).
  unfold save in Hsave.
  apply bind_inv in Hsave as (u1 & w7 & Ha & Hsave). inversion Ha; subst.
  apply bind_inv in Hsave as (d' & w8 & Hd & Hsave). inversion Hd; subst.
  apply bind_inv in Hsave as (chunks & w9 & Hsplit & Hsave).
  unfold lift in Hsplit.
  destruct (split (rows (merge_frame (sort_values d0))) MAX) as [chunks'|] eqn:Es;
    inversion Hsplit; subst.
  apply bind_inv in Hsave as (u2 & w10 & Hchunks & Hsave). inversion Hsave; subst.
  destruct (split_single _ _ _ Es) as [Hmne ->].
  { etransitivity; [apply merge_frame_length|].
    simpl. by rewrite (Permutation_length (stable_sort_Permutation _ _)). }
  split; [done|].
  simpl in Hchunks. apply bind_inv in Hchunks as (u3 & w11 & Hc & Hret).
  inversion Hret; subst. apply save_chunk_inv in Hc. subst.
  rewrite cleanup_no_key in Hp by done. inversion Hp; subst. done.
Qed.

Lemma visible_rows_ids (d : DataFrame num) :
  map decision_id (visible_rows d) = map decision_id (rows d).
Proof.
  unfold visible_rows. destruct (has_rewards_column d); [done|]. by rewrite map_map.
Qed.

Lemma length_visible_rows (d : DataFrame num) : length (visible_rows d) = length (rows d).
Proof. unfold visible_rows. destruct (has_rewards_column d); [done|]. by rewrite length_map. Qed.

Lemma read_files_rows w (ks : list PartitionKey) (dfs : list (DataFrame num)) :
  Forall2 (fun k d => objects w !! Live k = Some (Parquet d)) ks dfs ->
  length (rows (pd_concat dfs)) = sum_list (map (file_rows w) ks) /\
  forall r, r ∈ rows (pd_concat dfs) ->
    exists k d r', k ∈ ks /\ objects w !! Live k = Some (Parquet d) /\ r' ∈ rows d /\
                   decision_id r' = decision_id r.
Proof.
  simpl. induction 1 as [|k d ks dfs Hk Hall [IHlen IHrows]]; simpl.
  - split; [done|]. intros r Hr. by apply elem_of_nil in Hr.
  - split.
    + rewrite length_app, length_visible_rows, IHlen. unfold file_rows at 2. by rewrite Hk.
    + intros r Hr. apply elem_of_app in Hr as [Hr|Hr].
      * assert (decision_id r ∈ map decision_id (rows d)) as Hid.
        { rewrite <- visible_rows_ids. apply list_elem_of_fmap. eauto. }
        apply list_elem_of_fmap in Hid as (r' & Hid & Hr').
        exists k, d, r'. split; [left|done].
      * destruct (IHrows r Hr) as (k' & d' & r' & Hk' & ?).
        exists k', d', r'. split; [by right|done].
Qed.

Lemma chunk_key_bounds model u (c : list (Row num)) r1 r2 :
  head c = Some r1 -> last c = Some r2 ->
  key_min_ts (chunk_key model u c) = ts_of (decision_id r1) /\
  key_max_ts (chunk_key model u c) = ts_of (decision_id r2).
Proof.
  intros H1 H2. unfold chunk_key. simpl. split.
  - destruct c; simpl in *; [done|]. by inversion H1.
  - change (map decision_id c) with (decision_id <$> c). by rewrite fmap_last, H2.
Qed.

(* what repair does to one overlap of two keys or more, when the merged
   table fits in one file *)
Lemma repair_overlap_multi model c w w' :
  NoDup (values c) -> (1 < length (values c))%nat -> good_overlap c ->
  (forall k, k ∈ values c -> file_within_key w k) ->
  (sum_list (map (file_rows w) (values c)) <= MAX)%nat ->
  repair_overlap model c w = (Ok tt, w') ->
  exists k_new,
    sub_interval (interval_of k_new) (domain c) /\
    key_uuid k_new = next_uuid w /\ key_model k_new = model /\
    next_uuid w' = S (next_uuid w) /\
    (forall k, is_Some (objects w' !! Live k) ->
       (is_Some (objects w !! Live k) /\ k ∉ values c) \/ k = k_new) /\
    (forall k, k ∉ values c -> k <> k_new -> objects w' !! Live k = objects w !! Live k).
Proof.
  intros Hnd Hlen (Hprop & Hvne & Hsub) Hwithin Hrows Hrep.
  unfold repair_overlap, partition.repair_overlap, get_unique_overlapping_keys in Hrep.
  rewrite remove_dups_NoDup in Hrep by done.
  destruct (Nat.ltb_spec 1 (length (values c))) as [_|]; [|lia].
  apply bind_inv in Hrep as (dfs & w1 & Hread & Hrep).
  apply mapM_read_inv in Hread as [-> Hfiles].
  destruct (read_files_rows w _ _ Hfiles) as [Hl Hfrom].
  apply bind_inv in Hrep as (p & w2 & Hproc & Hrep).
  apply process_new_single in Hproc as [Hmne ->]; [|lia].
  apply bind_inv in Hrep as (us & w3 & Hdel & Hret). inversion Hret; subst.
  apply mapM_delete_inv in Hdel as (Hu & Hgone & Hkeep & Hsome).
  set (dm := merge_frame (sort_values (pd_concat dfs))) in *.
  set (k_new := chunk_key model (next_uuid w) (rows dm)).
  assert (forall r, r ∈ rows dm ->
            exists k, k ∈ values c /\
              key_min_ts k <= ts_of (decision_id r) <= key_max_ts k) as Hts.
  { intros r Hr. apply merge_frame_row_id in Hr as (id & r0 & Hid & Hr0 & Hid0).
    assert (r0 ∈ rows (pd_concat dfs)) as Hr0'.
    { revert Hr0. simpl. by rewrite stable_sort_Permutation. }
    destruct (Hfrom r0 Hr0') as (k & d & r' & Hk & Hobj & Hr' & Hid').
    exists k. split; [done|]. rewrite Hid, <- Hid0, <- Hid'.
    by apply (Hwithin k Hk d). }
  exists k_new. split; [|split; [done|split; [done|split; [|split]]]].
  - assert (exists r1, head (rows dm) = Some r1) as (r1 & Hr1).
    { destruct (rows dm); [done|eauto]. }
    assert (is_Some (last (rows dm))) as [r2 Hr2] by (by rewrite last_is_Some).
    assert (r1 ∈ rows dm) as Hr1in by (by apply head_Some_elem_of).
    assert (r2 ∈ rows dm) as Hr2in.
    { rewrite last_lookup in Hr2. by eapply list_elem_of_lookup_2. }
    destruct (Hts r1 Hr1in) as (ka & Hka & Ha).
    destruct (Hts r2 Hr2in) as (kb & Hkb & Hb).
    pose proof (Hsub ka Hka) as Sa. pose proof (Hsub kb Hkb) as Sb.
    destruct (chunk_key_bounds model (next_uuid w) (rows dm) r1 r2 Hr1 Hr2) as [Emin Emax].
    fold k_new in Emin, Emax.
    unfold interval_of at 1. rewrite Emin, Emax.
    unfold interval_of, closed in Sa, Sb.
    destruct (Z.leb_spec (key_min_ts ka) (key_max_ts ka)); [|lia].
    destruct (Z.leb_spec (key_min_ts kb) (key_max_ts kb)); [|lia].
    destruct (domain c) as [|lo hi]; [done|]. simpl in Sa, Sb.
    apply sub_interval_closed; lia.
  - rewrite Hu. simpl. done.
  - intros k Hk.
    destruct (decide (k ∈ values c)) as [Hin|Hnin].
    { rewrite (Hgone k Hin) in Hk. by destruct Hk. }
    apply Hsome in Hk. simpl in Hk.
    destruct (decide (k = k_new)) as [->|Hne]; [by right|].
    left. split; [|done]. rewrite lookup_insert_ne in Hk; [done|].
    intros [= Heq]. apply Hne. by rewrite <- Heq.
  - intros k Hnin Hne. rewrite Hkeep.
    + simpl. apply lookup_insert_ne. intros [= Heq]. apply Hne. by rewrite <- Heq.
    + intros k1 Hk1 [= ->]. done.
Qed.

Lemma sum_list_app_le (l1 l2 : list nat) n :
  (sum_list (l1 ++ l2) <= n -> sum_list l1 <= n /\ sum_list l2 <= n)%nat.
Proof. rewrite sum_list_with_app. lia. Qed.

(* the loop of repair over the overlaps: each overlap leaves one key, whose
   interval lies within the domain of the overlap *)
Lemma repair_overlaps_spec model comps : forall w w',
  NoDup (concat (map values comps)) ->
  Forall good_overlap comps ->
  (forall k, k ∈ concat (map values comps) ->
     is_Some (objects w !! Live k) /\ file_within_key w k) ->
  (sum_list (map (file_rows w) (concat (map values comps))) <= MAX)%nat ->
  store_fresh w ->
  repair_overlaps model comps w = (Ok tt, w') ->
  exists outs,
    Forall2 (fun c k => sub_interval (interval_of k) (domain c)) comps outs /\
    (forall k, is_Some (objects w' !! Live k) ->
       (is_Some (objects w !! Live k) /\ k ∉ concat (map values comps)) \/ k ∈ outs).
Proof.
  induction comps as [|c comps IH]; intros w w' Hnd Hgood Hlive Hrows Hfresh Hrep.
  - inversion Hrep; subst. exists []. split; [constructor|].
    intros k Hk. left. split; [done|]. apply not_elem_of_nil.
  - simpl in Hnd, Hlive, Hrows, Hrep.
    apply NoDup_app in Hnd as (Hndc & Hdis & Hndr).
    inversion Hgood as [|? ? Hgc Hgood']; subst.
    rewrite map_app in Hrows. apply sum_list_app_le in Hrows as [Hrc Hrr].
    apply bind_inv in Hrep as (u & w1 & Hstep & Hrep). destruct u.
    destruct (decide (1 < length (values c))%nat) as [Hmulti|Hsingle].
    + destruct (repair_overlap_multi model c w w1) as
        (k_new & Hsub & Hu & Hm & Hnext & Hlive1 & Hkeep); try done.
      { intros k Hk. apply Hlive. apply elem_of_app. by left. }
      assert (forall k, k ∈ concat (map values comps) ->
                objects w1 !! Live k = objects w !! Live k) as Hsame.
      { intros k Hk. apply Hkeep.
        - intros Hkc. by apply (Hdis k).
        - intros ->. destruct (Hlive k_new) as [Hl _]; [apply elem_of_app; by right|].
          specialize (Hfresh _ Hl). lia. }
      destruct (IH w1 w') as (outs & Hall & Hfin); try done.
      * intros k Hk. destruct (Hlive k) as [Hl Hw]; [apply elem_of_app; by right|].
        split; [by rewrite Hsame|].
        intros d r Hobj Hr. rewrite Hsame in Hobj by done. by apply (Hw d).
      * assert (map (file_rows w1) (concat (map values comps))
                = map (file_rows w) (concat (map values comps))) as ->; [|done].
        apply map_ext_in. intros k Hk. apply list_elem_of_In in Hk.
        unfold file_rows. by rewrite Hsame.
      * intros k Hk. rewrite Hnext. apply Hlive1 in Hk as [[Hk _]| ->].
        -- specialize (Hfresh _ Hk). lia.
        -- lia.
      * exists (k_new :: outs). split; [by constructor|].
        intros k Hk. apply Hfin in Hk as [[Hk Hnr]|Hk]; [|right; by right].
        apply Hlive1 in Hk as [[Hk Hnc]| ->]; [|right; left].
        left. split; [done|]. simpl. rewrite elem_of_app. tauto.
    + assert (w1 = w) as ->.
      { unfold repair_overlap, partition.repair_overlap, get_unique_overlapping_keys in Hstep.
        rewrite remove_dups_NoDup in Hstep by done.
        destruct (Nat.ltb_spec 1 (length (values c))); [lia|]. by inversion Hstep. }
      destruct Hgc as (Hp & Hvne & Hsub).
      destruct (values c) as [|k0 [|k1 l]] eqn:Ev; [done| |simpl in Hsingle; lia].
      destruct (IH w w') as (outs & Hall & Hfin); try done.
      * intros k Hk. apply Hlive. by right.
      * exists (k0 :: outs). split.
        -- constructor; [|done]. apply Hsub. left.
        -- intros k Hk. apply Hfin in Hk as [[Hk Hnr]|Hk]; [|right; by right].
           destruct (decide (k = k0)) as [->|Hne]; [right; left|].
           left. split; [done|]. simpl. rewrite Ev. simpl. rewrite not_elem_of_cons. done.
Qed.

Lemma repair_overlaps_singles model comps w :
  Forall (fun c => exists k, values c = [k]) comps ->
  repair_overlaps model comps w = (Ok tt, w).
Proof.
  induction 1 as [|c comps (k & Hk) Hall IH]; simpl; [done|].
  erewrite bind_Ok; [exact IH|].
  unfold repair_overlap, partition.repair_overlap, get_unique_overlapping_keys.
  rewrite Hk. reflexivity.
Qed.

Lemma repair_run model (partitions : list RDP) w min_id start :
  get_min_decision_id partitions = Ok min_id ->
  parquet_s3_key_prefix model min_id = Ok start ->
  repair_overlapping_keys model partitions w
  = if forallb (fun p => String.eqb (model_name p) model) partitions
    then repair_listed model (listed start model w) w
    else (Raise AssertionError, w).
Proof.
  intros Hmin Hstart. unfold repair_overlapping_keys, partition.repair_overlapping_keys.
  destruct (forallb _ partitions); [|done].
  unfold assert. unfold mbind at 1, M_bind at 1, mret at 1, M_ret at 1.
  unfold mbind at 1, M_bind at 1, lift at 1. rewrite Hmin.
  unfold mbind at 1, M_bind at 1, lift at 1. rewrite Hstart.
  unfold mbind at 1, M_bind at 1, list_partitions_after. reflexivity.
Qed.


End RepairFacts.
(** *** Repair on example stores *)


End PartitionProperties.

(** ** File selection of the reward-assignment workers *)

Section JoinRewardsProperties.
Import join_rewards.

Lemma hex_digits_ok s : forall acc,
  forallb is_hex (list_ascii_of_string s) = true -> 0 <= acc ->
  exists h, hex_digits s acc = Ok h /\ 0 <= h.
Proof.
  induction s as [|c s IH]; intros acc Hs Hacc; simpl in *.
  - eauto.
  - apply andb_prop in Hs as [Hc Hs]. unfold is_hex in Hc.
    destruct (hex_digit c) as [d|] eqn:Hd; [|discriminate].
    apply IH; [done|].
    assert (0 <= d).
    { unfold hex_digit in Hd.
      repeat match type of Hd with
             | (if ?b then _ else _) = _ => destruct b eqn:?
             end; inversion Hd; subst; lia. }
    lia.
Qed.

Lemma int_hex_ok name :
  starts_with_16_hex name = true ->
  exists h, int_hex (substring 0 16 name) = Ok h /\ 0 <= h.
Proof.
  unfold starts_with_16_hex. intros Hs. apply andb_prop in Hs as [Hl Hh].
  apply Nat.eqb_eq in Hl.
  unfold int_hex. destruct (substring 0 16 name) eqn:E; [discriminate|].
  apply hex_digits_ok; [done|lia].
Qed.

Lemma selects_ok name i N :
  starts_with_16_hex name = true -> 1 <= N ->
  selects name i N = Ok (file_hash name mod N =? i) /\ 0 <= file_hash name mod N < N.
Proof.
  intros Hn HN. destruct (int_hex_ok name Hn) as (h & Hh & H0).
  unfold selects, file_hash. rewrite Hh. simpl.
  destruct (Z.eqb_spec N 0); [lia|]. split; [done|]. apply Z.mod_pos_bound. lia.
Qed.

Lemma identify_ok files i N :
  Forall (fun f => starts_with_16_hex f = true) files -> 1 <= N ->
  identify_incoming_files_to_process files i N
  = Ok (filter (fun f => file_hash f mod N = i) files).
Proof.
  intros Hf HN. induction Hf as [|f fs Hf Hfs IH]; simpl; [done|].
  destruct (selects_ok f i N Hf HN) as [-> _]. simpl. rewrite IH. simpl.
  rewrite filter_cons. destruct (Z.eqb_spec (file_hash f mod N) i);
    destruct (decide (file_hash f mod N = i)); try done.
Qed.

Lemma concat_add_one {A} (f : A) (g : nat -> list A) (j : nat) (l : list nat) :
  NoDup l ->
  concat (map (fun i => if decide (i = j) then f :: g i else g i) l)
  ≡ₚ (if decide (j ∈ l) then [f] else []) ++ concat (map g l).
Proof.
  induction 1 as [|i l Hi Hnd IH]; simpl.
  - by destruct (decide (j ∈ [])).
  - rewrite IH. destruct (decide (i = j)) as [->|Hne].
    + destruct (decide (j ∈ l)); [done|].
      destruct (decide (j ∈ j :: l)) as [|Hn]; [done|].
      exfalso. apply Hn. left.
    + destruct (decide (j ∈ l)) as [Hin|Hin].
      * destruct (decide (j ∈ i :: l)) as [|Hn]; [|exfalso; apply Hn; by right].
        simpl. by rewrite Permutation_middle.
      * destruct (decide (j ∈ i :: l)) as [Hn|]; [|done].
        apply elem_of_cons in Hn as [->|]; done.
Qed.

Lemma selections_cover files N :
  1 <= N ->
  concat (map (fun i => filter (fun f => file_hash f mod N = i) files) (worker_ids N))
  ≡ₚ files.
Proof.
  intros HN. unfold worker_ids. rewrite map_map.
  induction files as [|f fs IH]; simpl.
  - induction (seq 0 (Z.to_nat N)); simpl; done.
  - set (j := Z.to_nat (file_hash f mod N)).
    pose proof (Z.mod_pos_bound (file_hash f) N ltac:(lia)) as Hb.
    rewrite (map_ext _ (fun i => if decide (i = j)
                                 then f :: filter (fun f0 => file_hash f0 mod N = Z.of_nat i) fs
                                 else filter (fun f0 => file_hash f0 mod N = Z.of_nat i) fs)).
    + rewrite concat_add_one by apply NoDup_seq.
      destruct (decide (j ∈ seq 0 (Z.to_nat N))) as [|Hn].
      * simpl. by rewrite IH.
      * exfalso. apply Hn. apply elem_of_seq. lia.
    + intros i. rewrite filter_cons.
      destruct (decide (file_hash f mod N = Z.of_nat i)), (decide (i = j)); try done; lia.
Qed.

(** C9: for input files whose names begin with 16 hexadecimal characters
    and a worker count N >= 1, every worker's selection succeeds, the
    selections of the N workers together hold every input file exactly once
    (their concatenation is a permutation of the input), and each file is
    selected by exactly one worker index in [0, N). *)
Theorem hash_partition_covers_once (files : list string) (N : Z) :
  Forall (fun f => starts_with_16_hex f = true) files -> 1 <= N ->
  exists sels : list (list string),
    Forall2 (fun i sel => identify_incoming_files_to_process files i N = Ok sel)
            (worker_ids N) sels /\
    concat sels ≡ₚ files /\
    (forall f, f ∈ files ->
       exists i, 0 <= i < N /\
         forall j sel, 0 <= j < N ->
           identify_incoming_files_to_process files j N = Ok sel ->
           (f ∈ sel <-> j = i)).
Proof.
  intros Hf HN.
  exists (map (fun i => filter (fun f => file_hash f mod N = i) files) (worker_ids N)).
  split; [|split].
  - apply Forall2_fmap_r, Forall_Forall2_diag, Forall_forall.
    intros i _. by apply identify_ok.
  - by apply selections_cover.
  - intros f Hin. exists (file_hash f mod N). split.
    + apply Z.mod_pos_bound. lia.
    + intros j sel Hj Hsel. rewrite identify_ok in Hsel by done.
      inversion Hsel; subst sel. rewrite list_elem_of_filter. split; [intros [? _]; done|].
      intros ->. done.
Qed.

Lemma hash_partition_covers_once_witness :
  exists sels : list (list string),
    Forall2 (fun i sel =>
               identify_incoming_files_to_process
                 ["00000000000000ff-a.jsonl.gz"; "0123456789abcdef-b.jsonl.gz"]%string i 3
               = Ok sel)
            (worker_ids 3) sels /\
    concat sels ≡ₚ ["00000000000000ff-a.jsonl.gz"; "0123456789abcdef-b.jsonl.gz"]%string /\
    (forall f, f ∈ ["00000000000000ff-a.jsonl.gz"; "0123456789abcdef-b.jsonl.gz"]%string ->
       exists i, 0 <= i < 3 /\
         forall j sel, 0 <= j < 3 ->
           identify_incoming_files_to_process
             ["00000000000000ff-a.jsonl.gz"; "0123456789abcdef-b.jsonl.gz"]%string j 3 = Ok sel ->
           (f ∈ sel <-> j = i)).
Proof.
  apply hash_partition_covers_once; [|lia].
  repeat constructor.
Defined.

End JoinRewardsProperties.

(** ** The record model *)

Section RecordModelProperties.
Import firehose_record.

Variable is_valid_ksuid : json -> bool.
Variable get_valid_timestamp : json -> result datetime.
Variable is_valid_model_name : json -> bool.
Variable dumps : json -> string.

(** C10: a record whose type tag is a string other than decision and
    reward is accepted as soon as message_id, timestamp and model are valid,
    whatever else it holds: no decision or reward field is read, the object
    has those slots unset, and its rewarded decision dict is empty. *)
Theorem unknown_type_accepted (json_record : gmap string json)
    (mid raw_ts mdl : json) (ts : datetime) (t : string) :
  json_record !! MESSAGE_ID_KEY = Some mid -> is_valid_ksuid mid = true ->
  json_record !! TIMESTAMP_KEY = Some raw_ts -> get_valid_timestamp raw_ts = Ok ts ->
  json_record !! TYPE_KEY = Some (JStr t) -> t <> DECISION_TYPE -> t <> REWARD_TYPE ->
  json_record !! MODEL_KEY = Some mdl -> is_valid_model_name mdl = true ->
  let r := {| message_id := Some mid; timestamp := Some (with_default_utc ts);
              type := Some t; model := Some mdl;
              decision_id := None; reward := None; variant := None; givens := None;
              count := None; runners_up := None; sample := None |} in
  FirehoseRecord_init is_valid_ksuid get_valid_timestamp is_valid_model_name json_record
  = Ok r /\
  to_rewarded_decision_dict dumps r = Ok ∅.
Proof.
  intros Hmid Vmid Hts Vts Hty Hd Hr Hmdl Vmdl r.
  apply String.eqb_neq in Hd, Hr.
  split.
  - unfold FirehoseRecord_init, getitem.
    rewrite Hmid. simpl. rewrite Vmid. simpl.
    rewrite Hts. simpl. rewrite Vts. simpl.
    rewrite Hty. simpl. rewrite Hmdl. simpl. rewrite Vmdl. simpl.
    unfold is_reward_record, is_decision_record. simpl. rewrite Hr. simpl. rewrite Hd. done.
  - unfold to_rewarded_decision_dict, is_reward_record, is_decision_record. simpl.
    rewrite Hd. simpl. rewrite Hr. done.
Qed.

End RecordModelProperties.

Lemma unknown_type_accepted_witness :
  let r :=
    {| firehose_record.message_id :=
         Some (firehose_record.JStr "0ujtsYcgvSTl8PAuAdqWYSMnLOv");
       firehose_record.timestamp :=
         Some {| firehose_record.dt_seconds := 1507608047;
                 firehose_record.dt_tzinfo := Some firehose_record.utc |};
       firehose_record.type := Some "event"%string;
       firehose_record.model := Some (firehose_record.JStr "songs");
       firehose_record.decision_id := None; firehose_record.reward := None;
       firehose_record.variant := None; firehose_record.givens := None;
       firehose_record.count := None; firehose_record.runners_up := None;
       firehose_record.sample := None |} in
  firehose_record.FirehoseRecord_init example_is_valid_ksuid example_get_valid_timestamp
    example_is_valid_model_name example_event_record = Ok r /\
  firehose_record.to_rewarded_decision_dict (fun _ => ""%string) r = Ok ∅.
Proof.
  apply (unknown_type_accepted example_is_valid_ksuid example_get_valid_timestamp
           example_is_valid_model_name (fun _ => ""%string) example_event_record
           (firehose_record.JStr "0ujtsYcgvSTl8PAuAdqWYSMnLOv")
           (firehose_record.JInt 1507608047)
           (firehose_record.JStr "songs")
           {| firehose_record.dt_seconds := 1507608047;
              firehose_record.dt_tzinfo := None |}
           "event"%string);
    try (vm_compute; reflexivity); discriminate.
Defined.

